(** * Functionary: training-data preparation and streaming decode

    A shallow embedding of the token-level parts of
    [functionary/train/custom_datasets.py] and [functionary/inference.py]:
    loss-label masking, greedy sequence packing, the block-causal attention
    mask, the dataset cache policy, the autoregressive decode loop and the
    streaming response classifier.

    Conventions.  Python [int] is [Z] where the code does arithmetic on
    values it is handed and [nat] where the value is a position or a
    [len(...)].  Python lists are [list]; [l[i] = v] is stdpp's
    [<[i:=v]> l] and is only ever used in range.  Tensors holding copied
    values (no floating-point arithmetic is performed on them) are lists of
    an abstract value type.  A Python string is a [string] whose
    characters are code points below 256.  The language model, the logits
    pipeline and the tokenizer are external: they appear as section
    variables.  Where a call can raise, its model returns an [option] (or
    an [outcome]) and says in its comment what [None] stands for. *)

From Stdlib Require Import ZArith Lia String Ascii.
From stdpp Require Import base list strings.

(** Outcome of a Python call whose model needs fuel: a value, a raised
    exception, or fuel exhausted (the loop has not finished yet). *)
Inductive outcome (A : Type) : Type :=
| Returned (a : A)
| Raised
| OutOfFuel.
Arguments Returned {A} a.
Arguments Raised {A}.
Arguments OutOfFuel {A}.

(* ================================================================== *)
(** ** Label masking ([get_masked_labels]) *)
(* ================================================================== *)

Module Masking.

(** The ignore sentinel of the loss. *)
Definition IGNORE : Z := (-100)%Z.

(** [get_matching_prefix(prefix_tokens, sequence_ids)]: the first prefix, in
    list order, that [sequence_ids] starts with. *)
Fixpoint get_matching_prefix (prefix_tokens : list (list Z)) (sequence_ids : list Z)
  : option (list Z) :=
  match prefix_tokens with
  | [] => None
  | prefix :: rest =>
      if (length prefix <=? length sequence_ids)%nat
         && bool_decide (take (length prefix) sequence_ids = prefix)
      then Some prefix
      else get_matching_prefix rest sequence_ids
  end.

Section Tokenizer.
(** [tokenizer.encode(text, add_special_tokens=False)]. *)
Variable encode : string -> list Z.
(** The values of the [EndToken] enumeration of [functionary.prompt], in
    iteration order (the module is not part of the sources at hand). *)
Variable EndToken_values : list string.

(** One round of the loop of [get_prefix_assistant_token_ids];
    [token_ids[0]] raises on an empty encoding. *)
Definition prefix_of_end_token (e : string) : option (list Z) :=
  let token_ids := encode (e +:+ String.String "010" "assistant:") in
  match token_ids with
  | [] => None
  | t0 :: tl => Some (if (t0 =? 29871)%Z then tl else token_ids)
  end.

Fixpoint prefixes_of (es : list string) : option (list (list Z)) :=
  match es with
  | [] => Some []
  | e :: es' =>
      match prefix_of_end_token e with
      | None => None
      | Some p =>
          match prefixes_of es' with
          | None => None
          | Some ps => Some (p :: ps)
          end
      end
  end.

Definition get_prefix_assistant_token_ids : option (list (list Z)) :=
  prefixes_of EndToken_values.

(** [endtoken_2_id[EndToken.assistant]] and
    [endtoken_2_id[EndToken.function_call]]. *)
Variables end_assistant end_function_call : Z.

Definition is_end_of_turn (tok_id : Z) : bool :=
  (tok_id =? end_assistant)%Z || (tok_id =? end_function_call)%Z.

(** The inner [for i in range(index + len(matched_prefix), total_input_leng)]
    loop, entered at position [i] with [n] positions left.  Returns the
    labels and [end_index]; [None] stands for the sentinel [-1].  The
    positions visited are below [total_input_leng], so both
    [input_token_ids[i]] and [labels[i]] are in range. *)
Fixpoint unmask_span (input_token_ids : list Z) (n i : nat) (labels : list Z)
  : list Z * option nat :=
  match n with
  | O => (labels, None)
  | S n' =>
      match input_token_ids !! i with
      | None => (labels, None)
      | Some tok_id =>
          if is_end_of_turn tok_id
          then (<[i := tok_id]> labels, Some i)
          else unmask_span input_token_ids n' (S i) (<[i := tok_id]> labels)
      end
  end.

(** One evaluation of the [while index < total_input_leng] loop: either
    the next [(labels, index)] or the labels the function returns (the
    loop condition failed, or [break] was taken).  The [verbose] block
    only prints. *)
Definition scan_iteration (prefix_token_ids : list (list Z))
    (input_token_ids : list Z) (st : list Z * nat) : (list Z * nat) + list Z :=
  let '(labels, index) := st in
  let total_input_leng := length input_token_ids in
  if (index <? total_input_leng)%nat then
    match get_matching_prefix prefix_token_ids (drop index input_token_ids) with
    | Some matched_prefix =>
        let start := (index + length matched_prefix)%nat in
        let '(labels', end_index) :=
          unmask_span input_token_ids (total_input_leng - start) start labels in
        match end_index with
        | None => inr labels'
        | Some e => inl (labels', e)
        end
    | None => inl (labels, (index + 1)%nat)
    end
  else inr labels.

Fixpoint scan (fuel : nat) (prefix_token_ids : list (list Z))
    (input_token_ids : list Z) (st : list Z * nat) : outcome (list Z) :=
  match fuel with
  | O => OutOfFuel
  | S fuel' =>
      match scan_iteration prefix_token_ids input_token_ids st with
      | inr labels => Returned labels
      | inl st' => scan fuel' prefix_token_ids input_token_ids st'
      end
  end.

(** The state after [k] full iterations, if the loop is still running. *)
Fixpoint scan_after (k : nat) (prefix_token_ids : list (list Z))
    (input_token_ids : list Z) (st : list Z * nat) : option (list Z * nat) :=
  match k with
  | O => Some st
  | S k' =>
      match scan_iteration prefix_token_ids input_token_ids st with
      | inr _ => None
      | inl st' => scan_after k' prefix_token_ids input_token_ids st'
      end
  end.

Definition initial_labels (input_token_ids : list Z) : list Z :=
  replicate (length input_token_ids) IGNORE.

Definition get_masked_labels (fuel : nat) (input_token_ids : list Z)
  : outcome (list Z) :=
  match get_prefix_assistant_token_ids with
  | None => Raised
  | Some prefix_token_ids =>
      scan fuel prefix_token_ids input_token_ids
           (initial_labels input_token_ids, O)
  end.

End Tokenizer.

End Masking.


(** A small tokenizer instance used to run the scan on concrete input: two
    end tokens, each encoded as one id, and ["\nassistant:"] as the id [7]. *)
Module MaskingExample.

Definition EndToken_values : list string :=
  ["<|END_OF_USER|>"; "<|END_OF_ASSISTANT|>"]%string.

Definition encode (text : string) : list Z :=
  if String.prefix "<|END_OF_USER|>" text then [29871; 32001; 7]%Z
  else [32002; 7]%Z.

Definition end_assistant : Z := 32002%Z.
Definition end_function_call : Z := 32003%Z.

(** A user turn, the assistant prefix, two content tokens, and the cut. *)
Definition truncated_ids : list Z := [5; 32001; 7; 11; 12]%Z.

End MaskingExample.

(* ================================================================== *)
(** ** Sequence packing ([merge_data_points_by_length]) *)
(* ================================================================== *)

Module Packing.

(** The dictionaries [{"length": length, "index": i}]. *)
Record item : Type := Item { item_length : Z; item_index : nat }.

(** [[{"length": length, "index": i} for i, length in enumerate(lengths)]],
    with the enumeration started at [i]. *)
Fixpoint enumerate_items (i : nat) (lengths : list Z) : list item :=
  match lengths with
  | [] => []
  | length :: rest => Item length i :: enumerate_items (S i) rest
  end.

(** [sorted(items, key=lambda x: x["index"])]: a stable sort on the index,
    here by insertion. *)
Fixpoint insert_by_index (x : item) (sorted : list item) : list item :=
  match sorted with
  | [] => [x]
  | y :: rest =>
      if (item_index x <=? item_index y)%nat then x :: y :: rest
      else y :: insert_by_index x rest
  end.

Definition sorted_by_index (items : list item) : list item :=
  foldr insert_by_index [] items.

(** The state of the packing loop: [merges], [current_sum], [current_list]. *)
Record pack_state : Type :=
  PackState { merges : list (list nat); current_sum : Z; current_list : list nat }.

(** The body of [for i in range(len(items))]; [items[i]] is always in
    range there. *)
Definition pack_step (items : list item) (max_length : Z)
    (st : pack_state) (i : nat) : pack_state :=
  match items !! i with
  | None => st
  | Some it =>
      let cur_length := item_length it in
      if (cur_length + current_sum st <=? max_length)%Z
      then PackState (merges st) (current_sum st + item_length it)
                     (current_list st ++ [i])
      else PackState (merges st ++ [current_list st]) cur_length [i]
  end.

(** [if len(current_list) > 0: merges.append(current_list)]. *)
Definition close_last (st : pack_state) : list (list nat) :=
  if (0 <? length (current_list st))%nat
  then merges st ++ [current_list st]
  else merges st.

(** [items[index]["index"]]; the positions stored in a merge are in range. *)
Definition original_index (items : list item) (index : nat) : nat :=
  from_option item_index O (items !! index).

Definition merge_data_points_by_length (lengths : list Z) (max_length : Z)
  : list (list nat) :=
  let items := sorted_by_index (enumerate_items O lengths) in
  let st := foldl (pack_step items max_length) (PackState [] 0%Z [])
                  (seq O (length items)) in
  map (fun merge => map (original_index items) merge) (close_last st).

(** Total length of the members of a group. *)
Definition group_length (lengths : list Z) (group : list nat) : Z :=
  foldr Z.add 0%Z (map (fun i => default 0%Z (lengths !! i)) group).

(** The packing policy in the words of the design: walk the sequences in
    their original order, add the next one to the current group while
    [running_sum + next_length <= capacity], otherwise close the group and
    start a new one with that sequence.  [i] is the position of the head of
    [lengths] in the input. *)
Fixpoint greedy_groups (capacity : Z) (i : nat) (lengths : list Z)
    (running_sum : Z) (group : list nat) : list (list nat) :=
  match lengths with
  | [] => match group with [] => [] | _ :: _ => [group] end
  | next_length :: rest =>
      if (running_sum + next_length <=? capacity)%Z
      then greedy_groups capacity (S i) rest (running_sum + next_length)
                         (group ++ [i])
      else group :: greedy_groups capacity (S i) rest next_length [i]
  end.

Definition greedy_pack (lengths : list Z) (capacity : Z) : list (list nat) :=
  greedy_groups capacity O lengths 0%Z [].

End Packing.

(* ================================================================== *)
(** ** Attention mask ([get_causal_mask], [create_mask_from_lengths]) *)
(* ================================================================== *)

Module AttentionMask.

Section Values.
(** The entries of the mask: the code only ever stores the number [0] and
    the fill value [m_value] it is handed, and never computes with them.
    A two-dimensional tensor is the list of its rows. *)
Context {V : Type}.
Variable zero : V.

(** [torch.full((rows, cols), value)]. *)
Definition full (rows cols : nat) (value : V) : list (list V) :=
  replicate rows (replicate cols value).

Definition entry (M : list (list V)) (r c : nat) : option V :=
  M !! r ≫= fun row => row !! c.

(** Entry-wise update with the position at hand: the common shape of
    [masked_fill_] and of slice assignment. *)
Definition mat_imap (f : nat -> nat -> V -> V) (M : list (list V))
  : list (list V) :=
  imap (fun i row => imap (f i) row) M.

(** [get_causal_mask(length, m_value)]: the condition tensor
    [mask_cond < (mask_cond + 1).view(n, 1)] is [j < i + 1] at row [i],
    column [j]. *)
Definition get_causal_mask (length : nat) (m_value : V) : list (list V) :=
  let mask := full length length m_value in
  mat_imap (fun i j old => if (j <? i + 1)%nat then zero else old) mask.

(** [result[a : a + l, a : a + l] = x] for a square [result] and an
    [l] by [l] tensor [x].  The slice is clipped to the size of [result];
    torch raises unless the clipped slice has the shape of [x] or [x] can be
    broadcast to it (a 1 by 1 tensor onto an empty slice). *)
Definition assign_block (result : list (list V)) (a l : nat)
    (x : list (list V)) : option (list (list V)) :=
  let n := length result in
  let side := (Nat.min (a + l) n - Nat.min a n)%nat in
  if (side =? l)%nat || (l =? 1)%nat then
    Some (mat_imap
            (fun i j old =>
               if (a <=? i)%nat && (i <? a + l)%nat
                  && (a <=? j)%nat && (j <? a + l)%nat
               then default old (entry x (i - a) (j - a))
               else old)
            result)
  else None.

(** [result[start:, :] = value] and [result[:, start:] = value]. *)
Definition fill_rows_from (start : nat) (value : V) (result : list (list V))
  : list (list V) :=
  mat_imap (fun i _ old => if (start <=? i)%nat then value else old) result.

Definition fill_cols_from (start : nat) (value : V) (result : list (list V))
  : list (list V) :=
  mat_imap (fun _ j old => if (start <=? j)%nat then value else old) result.

(** The [for length in lengths] loop, with [acc_leng] threaded. *)
Fixpoint place_blocks (lengths : list nat) (m_value : V) (acc_leng : nat)
    (result : list (list V)) : option (list (list V)) :=
  match lengths with
  | [] => Some result
  | length :: rest =>
      let x := get_causal_mask length m_value in
      match assign_block result acc_leng length x with
      | None => None
      | Some result' => place_blocks rest m_value (acc_leng + length) result'
      end
  end.

(** [create_mask_from_lengths(lengths, tokenizer, m_value)] with
    [max_length = tokenizer.model_max_length]; [None] when torch raises.
    A negative start [-pad_length] counts from the end. *)
Definition create_mask_from_lengths (lengths : list nat) (max_length : nat)
    (m_value : V) : option (list (list V)) :=
  match place_blocks lengths m_value O (full max_length max_length m_value) with
  | None => None
  | Some result =>
      let pad_length := (Z.of_nat max_length - Z.of_nat (sum_list lengths))%Z in
      if (0 <? pad_length)%Z then
        let start := (max_length - Z.to_nat pad_length)%nat in
        Some (fill_cols_from start m_value (fill_rows_from start zero result))
      else Some result
  end.

(** Cumulative offset of segment [k]: the total length of the segments
    before it. *)
Definition offset (lengths : list nat) (k : nat) : nat :=
  sum_list (take k lengths).

(** Position [r] lies in segment [k]. *)
Definition in_segment (lengths : list nat) (k r : nat) : bool :=
  match lengths !! k with
  | None => false
  | Some l => (offset lengths k <=? r)%nat && (r <? offset lengths k + l)%nat
  end.

(** Among the first [count] segments there is one that holds both [r] and
    [c], with [c] not after [r]. *)
Definition block_open (lengths : list nat) (count r c : nat) : bool :=
  existsb (fun k => in_segment lengths k r && in_segment lengths k c
                    && (c <=? r)%nat)
          (seq O count).

(** What the loop of [create_mask_from_lengths] maintains: after [count]
    segments the tensor is [n] by [n], open exactly inside the causal part
    of the blocks placed so far, and at the fill value elsewhere. *)
Definition mask_inv (m_value : V) (lengths : list nat) (n count : nat)
    (M : list (list V))
  : Prop :=
  length M = n
  /\ forall r c, (r < n)%nat -> (c < n)%nat ->
       entry M r c
       = Some (if block_open lengths count r c then zero else m_value).

End Values.

End AttentionMask.

(* ================================================================== *)
(** ** Packed items ([merge_data_points]) *)
(* ================================================================== *)

Module Merge.

(** The fields of the tokenizer that the data pipeline reads. *)
Record tokenizer : Type := Tokenizer {
  model_max_length : nat;
  padding_side : string;
  pad_token_id : Z
}.

(** An encoded example: the dictionary with keys ["input_ids"], ["labels"]
    and ["attention_mask"]. *)
Record data_point : Type := DataPoint {
  input_ids : list Z;
  labels : list Z;
  attention_mask : list Z
}.

(** The dictionary returned by [merge_data_points]; the mask carries the
    leading axis added by [torch.unsqueeze(attention_mask, 0)]. *)
Record packed_item (V : Type) : Type := PackedItem {
  packed_input_ids : list Z;
  packed_labels : list Z;
  packed_attention_mask : list (list (list V))
}.
Arguments PackedItem {V} _ _ _.
Arguments packed_input_ids {V} _.
Arguments packed_labels {V} _.
Arguments packed_attention_mask {V} _.

(** The [for item in data_points] loop: concatenated ids, concatenated
    labels with the first label of every member forced to [-100], and the
    member lengths.  [labels[0] = -100] raises on an empty label list. *)
Fixpoint concat_members (data_points : list data_point)
  : option (list Z * list Z * list nat) :=
  match data_points with
  | [] => Some ([], [], [])
  | item :: rest =>
      match labels item with
      | [] => None
      | _ :: labels_tail =>
          match concat_members rest with
          | None => None
          | Some (ids, label_ids, lengths) =>
              Some (input_ids item ++ ids,
                    (Masking.IGNORE :: labels_tail) ++ label_ids,
                    length (input_ids item) :: lengths)
          end
      end
  end.

Section Values.
Context {V : Type}.
(** The float [0] and [float("-inf")]. *)
Variables zero neg_inf : V.

(** [merge_data_points(data_points, tokenizer)]; [None] when the call
    raises (empty labels, a mask block that does not fit, or the final
    [assert]). *)
Definition merge_data_points (data_points : list data_point) (tok : tokenizer)
  : option (packed_item V) :=
  match concat_members data_points with
  | None => None
  | Some (ids, label_ids, lengths) =>
      match AttentionMask.create_mask_from_lengths
              zero lengths (model_max_length tok) neg_inf with
      | None => None
      | Some mask =>
          let pad_leng :=
            Z.to_nat (Z.of_nat (model_max_length tok) - Z.of_nat (length ids)) in
          let '(ids', label_ids') :=
            if String.eqb (padding_side tok) "right"
            then (ids ++ replicate pad_leng (pad_token_id tok),
                  label_ids ++ replicate pad_leng Masking.IGNORE)
            else (replicate pad_leng (pad_token_id tok) ++ ids,
                  replicate pad_leng Masking.IGNORE ++ label_ids) in
          if (length ids' =? length label_ids')%nat
             && (length label_ids' =? length mask)%nat
          then Some (PackedItem ids' label_ids' [mask])
          else None
      end
  end.

End Values.

(** One example of one token, packed into a capacity of two. *)
Definition single_token_point : data_point := DataPoint [7]%Z [7]%Z [1]%Z.
Definition left_tokenizer : tokenizer := Tokenizer 2 "left" 0%Z.
Definition right_tokenizer : tokenizer := Tokenizer 2 "right" 0%Z.

End Merge.

(* ================================================================== *)
(** ** Python string operations used by the decoder *)
(* ================================================================== *)

Module PyString.

Local Open Scope string_scope.

(** [s[n:]] for [n >= 0]. *)
Fixpoint string_drop (n : nat) (s : string) : string :=
  match n, s with
  | O, _ => s
  | S n', EmptyString => EmptyString
  | S n', String _ rest => string_drop n' rest
  end.

(** [str.isspace] on one character.  A character is a code point below
    256: tab to carriage return, the four separators 28 to 31, the space,
    NEL (133) and the no-break space (160). *)
Definition is_space (c : ascii) : bool :=
  let n := nat_of_ascii c in
  ((9 <=? n) && (n <=? 13))%nat || ((28 <=? n) && (n <=? 32))%nat
  || (n =? 133)%nat || (n =? 160)%nat.

(** [s.lstrip()], [s.rstrip()] and [s.strip()]. *)
Fixpoint lstrip (s : string) : string :=
  match s with
  | EmptyString => EmptyString
  | String c rest => if is_space c then lstrip rest else s
  end.

Fixpoint rstrip (s : string) : string :=
  match s with
  | EmptyString => EmptyString
  | String c rest =>
      match rstrip rest with
      | EmptyString => if is_space c then EmptyString else String c EmptyString
      | String _ _ as rest' => String c rest'
      end
  end.

Definition strip (s : string) : string := rstrip (lstrip s).

Definition newline : ascii := "010"%char.
Definition colon : ascii := ":"%char.

(** The tail [.+?:] of the pattern once one character of the group has
    been taken: extend the group, which holds no newline, up to the first
    colon. *)
Fixpoint lazy_until_colon (s group : string) : option string :=
  match s with
  | EmptyString => None
  | String c rest =>
      if Ascii.eqb c colon then Some group
      else if Ascii.eqb c newline then None
      else lazy_until_colon rest (group ++ String c EmptyString)
  end.

(** A match of [to=functions\.(?P<f>.+?):] anchored at the start of [s];
    the result is the group [f]. *)
Definition match_function_at (s : string) : option string :=
  if String.prefix "to=functions." s then
    match string_drop 13 s with
    | EmptyString => None
    | String c rest =>
        if Ascii.eqb c newline then None
        else lazy_until_colon rest (String c EmptyString)
    end
  else None.

(** [re.search(r"to=functions\.(?P<f>.+?):", s)]: the leftmost match;
    returns [match.group("f")]. *)
Fixpoint search_function (s : string) : option string :=
  match match_function_at s with
  | Some f => Some f
  | None =>
      match s with
      | EmptyString => None
      | String _ rest => search_function rest
      end
  end.

End PyString.

(* ================================================================== *)
(** ** Autoregressive decode loop ([generate_text_stream]) *)
(* ================================================================== *)

Module Decode.

Section Session.
(** The token chosen at a step, given every id so far (prompt and
    generated): forward pass, logits processors and the top-k or
    multinomial choice, as they fall in one session. *)
Variable sample : list Z -> Z.
(** [tokenizer.decode(ids, skip_special_tokens=True,
    clean_up_tokenization_spaces=False)]. *)
Variable decode : list Z -> string.
(** [tokenizer.eos_token_id], the only entry of [stop_token_ids]. *)
Variable eos_token_id : Z.

(** [output]: the text that appending [token_int] adds to the decoding. *)
Definition text_increment (output_ids : list Z) (token_int : Z) : string :=
  let current_output_text := decode output_ids in
  let next_output_text := decode (output_ids ++ [token_int]) in
  PyString.string_drop (String.length current_output_text) next_output_text.

(** The [for i in range(max_new_tokens)] loop, with [steps] rounds left:
    the pairs it yields and the final [reach_stop_token].  The [break] on a
    stop token comes before the [yield] of that round. *)
Fixpoint decode_steps (steps : nat) (output_ids : list Z)
  : list (string * option string) * bool :=
  match steps with
  | O => ([], false)
  | S steps' =>
      let token_int := sample output_ids in
      let output := text_increment output_ids token_int in
      if (token_int =? eos_token_id)%Z then ([], true)
      else
        let '(yielded, reach_stop_token) :=
          decode_steps steps' (output_ids ++ [token_int]) in
        ((output, None) :: yielded, reach_stop_token)
  end.

(** Everything [generate_text_stream] yields for the prompt [input_ids]. *)
Definition generate_text_stream (input_ids : list Z) (max_new_tokens : nat)
  : list (string * option string) :=
  let '(yielded, reach_stop_token) := decode_steps max_new_tokens input_ids in
  let finish_reason := if reach_stop_token then "stop" else "lenghth" in
  yielded ++ [(EmptyString, Some finish_reason)]%string.

(** The ids, the chosen token and the text increment at step [i]. *)
Fixpoint ids_at (input_ids : list Z) (i : nat) : list Z :=
  match i with
  | O => input_ids
  | S i' => ids_at input_ids i' ++ [sample (ids_at input_ids i')]
  end.

Definition token_at (input_ids : list Z) (i : nat) : Z :=
  sample (ids_at input_ids i).

Definition increment_at (input_ids : list Z) (i : nat) : string :=
  text_increment (ids_at input_ids i) (token_at input_ids i).

End Session.

(** Two small sessions over the prompt [[1]], with end-of-sequence id 2.
    In the first the model says the token 5 ("hello") and then stops; the
    second never stops. *)
Definition hello_sample (ids : list Z) : Z :=
  if (length ids <=? 1)%nat then 5%Z else 2%Z.
Definition hello_decode (ids : list Z) : string :=
  (if bool_decide (5%Z ∈ ids) then "hello" else EmptyString)
  +:+ (if bool_decide (2%Z ∈ ids) then "!" else EmptyString).
Definition endless_sample (ids : list Z) : Z := 5%Z.
Definition endless_decode (ids : list Z) : string :=
  String.concat EmptyString (replicate (length ids - 1) "a"%string).

End Decode.

(* ================================================================== *)
(** ** Streaming response classifier ([generate_stream]) *)
(* ================================================================== *)

Module Stream.

Local Open Scope string_scope.

(** A key of a response dictionary: missing, present with [None], or
    present with a value. *)
Inductive field (A : Type) : Type :=
| Absent
| Null
| Value (a : A).
Arguments Absent {A}.
Arguments Null {A}.
Arguments Value {A} a.

(** [{"arguments": ..., "name": ...}]; [name] is the variable [func_name]. *)
Record function_call : Type := FunctionCall {
  arguments : string;
  name : option string
}.

(** The inner dictionary ["delta"]. *)
Record delta : Type := Delta {
  role : string;
  content : field string;
  call : field function_call
}.

(** [{"delta": ..., "finish_reason": ...}]. *)
Record response : Type := Response {
  response_delta : delta;
  finish_reason : option string
}.

Inductive kind : Type := KFunction | KText.

(** The local variables [cur_text], [func_name] and [response_type]. *)
Record state : Type := State {
  cur_text : string;
  func_name : option string;
  response_type : option kind
}.

Definition initial : state := State EmptyString None None.

(** The literal [":\n"]. *)
Definition turn_separator : string :=
  String ":" (String PyString.newline EmptyString).

(** The body of [for item, finish_reason in generator]: the next state
    and the response it yields, if any. *)
Definition classify (st : state) (item : string) (reason : option string)
  : state * option response :=
  let cur_text := cur_text st ++ item in
  match response_type st with
  | None =>
      if String.eqb (PyString.lstrip cur_text) turn_separator
      then (State cur_text (func_name st) (Some KText),
            Some (Response (Delta "assistant" (Value EmptyString) Absent) None))
      else
        match PyString.search_function (PyString.strip cur_text) with
        | Some f =>
            let func_name := PyString.strip f in
            (State cur_text (Some func_name) (Some KFunction),
             Some (Response
                     (Delta "assistant" Null
                            (Value (FunctionCall EmptyString (Some func_name))))
                     None))
        | None => (State cur_text (func_name st) None, None)
        end
  | Some KFunction =>
      (State cur_text (func_name st) (Some KFunction),
       Some (match reason with
             | None =>
                 Response (Delta "assistant" Absent
                                 (Value (FunctionCall item (func_name st))))
                          None
             | Some _ =>
                 Response (Delta "assistant" Absent Absent)
                          (Some "function_call")
             end))
  | Some KText =>
      (State cur_text (func_name st) (Some KText),
       Some (match reason with
             | None => Response (Delta "assistant" (Value item) Absent) None
             | Some r => Response (Delta "assistant" Absent Absent) (Some r)
             end))
  end.

(** The responses yielded while consuming a run of generator items. *)
Fixpoint consume (st : state) (items : list (string * option string))
  : list response :=
  match items with
  | [] => []
  | (item, reason) :: rest =>
      let '(st', yielded) := classify st item reason in
      match yielded with
      | Some r => r :: consume st' rest
      | None => consume st' rest
      end
  end.

(** [generate_stream] over the items of a given generator. *)
Definition classify_stream (items : list (string * option string))
  : list response :=
  consume initial items.

(** [generate_stream(model, tokenizer, messages, ...)], the generator being
    [generate_text_stream] with the same arguments. *)
Definition generate_stream (sample : list Z -> Z) (decode : list Z -> string)
    (eos_token_id : Z) (input_ids : list Z) (max_new_tokens : nat)
  : list response :=
  classify_stream
    (Decode.generate_text_stream sample decode eos_token_id input_ids
                                 max_new_tokens).

(** The text accumulated after each item of a run, starting from [text]. *)
Fixpoint accumulated (text : string) (items : list (string * option string))
  : list string :=
  match items with
  | [] => []
  | (item, _) :: rest => (text ++ item) :: accumulated (text ++ item) rest
  end.

(** The session leaves [Undetermined] on the accumulated text [text]. *)
Definition determines (text : string) : bool :=
  String.eqb (PyString.lstrip text) turn_separator
  || match PyString.search_function (PyString.strip text) with
     | Some _ => true
     | None => false
     end.

(** The state reached after a run of items, and the text the run carries. *)
Fixpoint advance (st : state) (items : list (string * option string)) : state :=
  match items with
  | [] => st
  | (item, reason) :: rest => advance (classify st item reason).1 rest
  end.

Fixpoint text_of (items : list (string * option string)) : string :=
  match items with
  | [] => EmptyString
  | (item, _) :: rest => item ++ text_of rest
  end.

(** Items that carry no finish reason. *)
Definition increments (texts : list string) : list (string * option string) :=
  map (fun text => (text, None)) texts.

(** The shapes of response. *)
Definition open_text : response :=
  Response (Delta "assistant" (Value EmptyString) Absent) None.
Definition open_function (f : string) : response :=
  Response (Delta "assistant" Null (Value (FunctionCall EmptyString (Some f)))) None.
Definition arguments_delta (f text : string) : response :=
  Response (Delta "assistant" Absent (Value (FunctionCall text (Some f)))) None.
Definition content_delta (text : string) : response :=
  Response (Delta "assistant" (Value text) Absent) None.
Definition closing (reason : string) : response :=
  Response (Delta "assistant" Absent Absent) (Some reason).

(** The pieces of scenario B. *)
Definition call_header : string :=
  "to=functions.get_weather:" ++ String PyString.newline EmptyString.
Definition dquote : ascii := "034"%char.
Definition city_key : string :=
  "{" ++ String dquote ("city" ++ String dquote ":").
Definition city_value : string :=
  String dquote ("NYC" ++ String dquote "}").

End Stream.

(* ================================================================== *)
(** ** Dataset cache ([CachedDataset], [PackedDataset],
       [DirectPackedDataset]) *)
(* ================================================================== *)

Module Cache.
Import Merge.

(** A cache folder as the loaders see it: the decoded records of
    [inputs.jsonl] (one per non-blank line) when the file exists, the
    ["max_length"] entry of [meta_info.json] (written by
    [PackedDataset.dump]) and that of [meta_info.jsonl] (written by
    [CachedDataset.dump] and [CustomDataset.dump]) when they exist, and
    whether [inputs.jsonl] has a line of white space only.
    [PackedDataset.load] strips every line and skips the empty ones;
    [CachedDataset.load] and [CustomDataset.load] test the line with its
    newline still on, so a blank line reaches [json.loads] and raises. *)
Record folder : Type := Folder {
  inputs_jsonl : option (list data_point);
  meta_info_json : option Z;
  meta_info_jsonl : option Z;
  blank_line : bool
}.

(** [is_valid_labels] on a list: some label differs from [-100]. *)
Definition is_valid_labels_list (labels : list Z) : bool :=
  let non_mask_count :=
    length (filter (fun label => label <> Masking.IGNORE) labels) in
  negb (non_mask_count =? 0)%nat.

(** Arithmetic on an [int64] tensor wraps around. *)
Definition wrap_int64 (z : Z) : Z :=
  ((z + 2 ^ 63) mod 2 ^ 64 - 2 ^ 63)%Z.

(** [is_valid_labels] on a tensor: [sum(labels + 100)] is not zero.  The
    labels are the entries of an [int64] tensor; [labels + 100] and every
    addition of the built-in [sum], which runs from the left starting at
    [0], are [int64] operations. *)
Definition is_valid_labels_tensor (labels : list Z) : bool :=
  negb (foldl (fun acc label =>
                 wrap_int64 (acc + wrap_int64 (label + 100)))
              0%Z labels =? 0)%Z.

(** The data points hold tensors after [load] and lists when freshly
    encoded with [return_tensor=False]. *)
Definition is_valid_labels (tensors : bool) (labels : list Z) : bool :=
  if tensors then is_valid_labels_tensor labels
  else is_valid_labels_list labels.

Definition remove_invalid_label_items (tensors : bool)
    (data_points : list data_point) : list data_point :=
  filter (fun dp => is_valid_labels tensors (labels dp) = true) data_points.

(** The attributes of a [PackedDataset]; [lengths] and [groups] exist once
    [pack_data_points] has run. *)
Record packed_dataset : Type := PackedDataset {
  data_points : list data_point;
  packing : option (list Z * list (list nat))
}.

Definition pack_data_points (tensors : bool) (tok : tokenizer)
    (points : list data_point) : packed_dataset :=
  let valid_data_points := remove_invalid_label_items tensors points in
  let lengths :=
    map (fun item => Z.of_nat (length (input_ids item))) valid_data_points in
  let groups :=
    Packing.merge_data_points_by_length
      lengths (Z.of_nat (model_max_length tok)) in
  PackedDataset valid_data_points (Some (lengths, groups)).

(** [read_max_length_from_cached]; [None] when the file cannot be read. *)
Definition read_max_length_from_cached (f : folder) : option Z :=
  meta_info_json f.

Definition is_loadable_cached (tok : tokenizer) (f : folder) : option bool :=
  match read_max_length_from_cached f with
  | None => None
  | Some cached_max_length =>
      Some (Z.of_nat (model_max_length tok) <=? cached_max_length)%Z
  end.

(** [item[key][: model_max_length]] for every key of a record. *)
Definition truncate (n : nat) (item : data_point) : data_point :=
  DataPoint (take n (input_ids item)) (take n (labels item))
            (take n (attention_mask item)).

(** [PackedDataset.load]; [None] when a file is missing or the [assert]
    on the cached length fails. *)
Definition load (tok : tokenizer) (f : folder) : option packed_dataset :=
  match read_max_length_from_cached f with
  | None => None
  | Some cached_max_length =>
      if (Z.of_nat (model_max_length tok) <=? cached_max_length)%Z then
        match inputs_jsonl f with
        | None => None
        | Some items =>
            Some (pack_data_points true tok
                    (map (truncate (model_max_length tok)) items))
        end
      else None
  end.

Definition empty_dataset : packed_dataset := PackedDataset [] None.

(** [PackedDataset.__init__].  [cached_path] is [None] for the Python
    [None]; a path without [inputs.jsonl] is a folder whose [inputs_jsonl]
    is [None]. *)
Definition PackedDataset_init (tok : tokenizer) (cached_path : option folder)
    (ignore_cached : bool) : option packed_dataset :=
  match cached_path with
  | Some f =>
      if bool_decide (is_Some (inputs_jsonl f)) && negb ignore_cached then
        match is_loadable_cached tok f with
        | None => None
        | Some true => load tok f
        | Some false => Some empty_dataset
        end
      else Some empty_dataset
  | None => Some empty_dataset
  end.

(** [DirectPackedDataset.__init__], up to the dump of a fresh cache.
    [original_datapoints] is what [prepare_training_inputs_batch] encodes
    from [raw_data], as lists. *)
Definition DirectPackedDataset_init (tok : tokenizer)
    (original_datapoints : list data_point) (cached_path : option folder)
    (ignore_cached : bool) : option packed_dataset :=
  match PackedDataset_init tok cached_path ignore_cached with
  | None => None
  | Some ds =>
      if (length (data_points ds) =? 0)%nat
      then Some (pack_data_points false tok original_datapoints)
      else Some ds
  end.





(** A cache of one record of three tokens, written at context length 4. *)
Definition short_context_record : data_point :=
  DataPoint [5; 6; 7]%Z [-100; 6; 7]%Z [1; 1; 1]%Z.
Definition short_context_folder : folder :=
  Folder (Some [short_context_record]) (Some 4%Z) (Some 4%Z) false.

End Cache.

(* ================================================================== *)
(** ** Further definitions: label masking *)
(* ================================================================== *)

Module MaskingProps.

(** Labels of the right length that hold, at every position, the ignore
    value or the token of that position. *)
Definition labels_ok (input_token_ids labels : list Z) : Prop :=
  length labels = length input_token_ids
  /\ forall i l, labels !! i = Some l ->
                 l = Masking.IGNORE \/ input_token_ids !! i = Some l.

(** A user turn, the assistant prefix, one content token, the closing
    marker of the assistant turn, and one more token. *)
Definition closed_ids : list Z := [5; 32001; 7; 11; 32002; 9]%Z.

(** A tokenizer whose encoding of every prefix text is the artifact token
    alone, so that every pattern is empty once the artifact is stripped. *)
Definition artifact_encode (text : string) : list Z := [29871]%Z.

End MaskingProps.

(* ================================================================== *)
(** ** Batch boundaries ([get_batch_indices]) *)
(* ================================================================== *)

Module Batches.

(** [range(n)]; empty for a negative [n]. *)
Definition range (n : Z) : list Z := map Z.of_nat (seq O (Z.to_nat n)).

(** One round of the loop: the pair appended for [i], if any. *)
Definition batch_at (size batch_size i : Z) : list (Z * Z) :=
  let start := (i * batch_size)%Z in
  let end_ := (i * batch_size + batch_size)%Z in
  let end_ := if (size <? end_)%Z then size else end_ in
  if (start <? end_)%Z then [(start, end_)] else [].

(** [get_batch_indices(size, batch_size)]; [None] for the
    [ZeroDivisionError] of [size // 0]. *)
Definition get_batch_indices (size batch_size : Z) : option (list (Z * Z)) :=
  if (batch_size =? 0)%Z then None
  else Some (flat_map (batch_at size batch_size)
                      (range (size / batch_size + 1))).

(** [data[start:end]] for [0 <= start <= end]. *)
Definition slice {A : Type} (data : list A) (bounds : Z * Z) : list A :=
  take (Z.to_nat (bounds.2 - bounds.1)) (drop (Z.to_nat bounds.1) data).

(** Pairs that follow one another from [from] to [to]. *)
Fixpoint contiguous (from : Z) (bounds : list (Z * Z)) (to : Z) : Prop :=
  match bounds with
  | [] => from = to
  | (start, end_) :: rest => start = from /\ contiguous end_ rest to
  end.

End Batches.

(* ================================================================== *)
(** ** Further definitions: packing *)
(* ================================================================== *)

Module PackingProps.

(** Every group but the last was closed because the head of the group
    after it did not fit any more. *)
Fixpoint closed_when_full (lengths : list Z) (capacity : Z)
    (groups : list (list nat)) : Prop :=
  match groups with
  | g1 :: ((g2 :: _) as rest) =>
      (exists h t, g2 = h :: t
                   /\ (capacity < Packing.group_length lengths g1
                                  + default 0 (lengths !! h))%Z)
      /\ closed_when_full lengths capacity rest
  | _ => True
  end.

End PackingProps.

(* ================================================================== *)
(** ** Further definitions: packed items *)
(* ================================================================== *)

Module MergeProps.
Import Merge.

(** The labels a member contributes: its own, the first one ignored. *)
Definition relabel (item : data_point) : list Z :=
  Masking.IGNORE :: tail (labels item).

(** The token total of a group. *)
Definition total_length (data_points : list data_point) : nat :=
  sum_list (map (fun item => length (input_ids item)) data_points).

(** The number of pad positions in front of the tokens. *)
Definition front_pad (tok : tokenizer) (data_points : list data_point) : nat :=
  if String.eqb (padding_side tok) "right" then O
  else (model_max_length tok - total_length data_points)%nat.

(** A member that can be merged: it has a label for every token, and at
    least one. *)
Definition mergeable (item : data_point) : Prop :=
  labels item <> [] /\ length (labels item) = length (input_ids item).

Definition two_points : list data_point :=
  [DataPoint [5; 6]%Z [-100; 6]%Z [1; 1]%Z; DataPoint [7]%Z [7]%Z [1]%Z].
Definition wide_tokenizer : tokenizer := Tokenizer 5 "right" 0%Z.

End MergeProps.

(* ================================================================== *)
(** ** Packed data set: items and dump ([PackedDataset.__len__],
       [__getitem__], [dump]; [CachedDataset.dump]) *)
(* ================================================================== *)

Module Dataset.
Import Merge Cache.

(** [len(self.groups)]; [None] while [groups] is not set. *)
Definition PackedDataset_len (ds : packed_dataset) : option nat :=
  match packing ds with
  | None => None
  | Some (_, groups) => Some (length groups)
  end.

(** [[self.data_points[index] for index in group]]. *)
Fixpoint select (points : list data_point) (group : list nat)
  : option (list data_point) :=
  match group with
  | [] => Some []
  | index :: rest =>
      match points !! index with
      | None => None
      | Some item =>
          match select points rest with
          | None => None
          | Some items => Some (item :: items)
          end
      end
  end.

(** [PackedDataset.__getitem__(i)] for an index [i >= 0]; [None] when the
    call raises. *)
Definition PackedDataset_getitem {V : Type} (zero neg_inf : V)
    (tok : tokenizer) (ds : packed_dataset) (i : nat)
  : option (packed_item V) :=
  match packing ds with
  | None => None
  | Some (_, groups) =>
      match groups !! i with
      | None => None
      | Some group =>
          match select (data_points ds) group with
          | None => None
          | Some group_data_points =>
              merge_data_points zero neg_inf group_data_points tok
          end
      end
  end.

(** [PackedDataset.dump(folder)] into the directory [old] ([None] when it
    does not exist yet): [inputs.jsonl] and [meta_info.json] are written,
    any other file stays.  Every line written is a record.  [json.dumps]
    raises on a record that holds tensors, that is on a data set read
    from a cache. *)
Definition PackedDataset_dump (tensors : bool) (tok : tokenizer)
    (ds : packed_dataset) (old : option folder) : option folder :=
  if tensors && negb (length (data_points ds) =? 0)%nat then None
  else Some (Folder (Some (data_points ds))
                    (Some (Z.of_nat (model_max_length tok)))
                    (old ≫= meta_info_jsonl) false).

(** [CachedDataset.dump(folder)] of list-valued records: [inputs.jsonl]
    and [meta_info.jsonl] are written. *)
Definition CachedDataset_dump (tok : tokenizer) (points : list data_point)
    (old : option folder) : folder :=
  Folder (Some points) (old ≫= meta_info_json)
         (Some (Z.of_nat (model_max_length tok))) false.

(** A record that survives a round trip through the cache unchanged: no
    array longer than the context, every label the ignore value or a
    token id below [2^31], and every token id and mask entry a natural
    number below [2^31]. *)
Definition storable (tok : tokenizer) (item : data_point) : Prop :=
  (length (input_ids item) <= model_max_length tok)%nat
  /\ (length (labels item) <= model_max_length tok)%nat
  /\ (length (attention_mask item) <= model_max_length tok)%nat
  /\ Forall (fun label => (-100 <= label < 2 ^ 31)%Z) (labels item)
  /\ Forall (fun id => (0 <= id < 2 ^ 31)%Z) (input_ids item)
  /\ Forall (fun entry => (0 <= entry < 2 ^ 31)%Z) (attention_mask item).

(** A record with one label per token that fits the context. *)
Definition packable (tok : tokenizer) (item : data_point) : Prop :=
  length (labels item) = length (input_ids item)
  /\ (length (input_ids item) <= model_max_length tok)%nat.

(** The sum of the labels, each shifted by 100, as an integer. *)
Definition shifted_sum (labels : list Z) : Z :=
  foldr Z.add 0%Z (map (fun label => (label + 100)%Z) labels).

Definition three_points : list data_point :=
  [DataPoint [5; 6]%Z [-100; 6]%Z [1; 1]%Z;
   DataPoint [8; 9]%Z [-100; -100]%Z [1; 1]%Z;
   DataPoint [7; 3; 4]%Z [-100; 3; 4]%Z [1; 1; 1]%Z].
Definition small_tokenizer : tokenizer := Tokenizer 4 "right" 0%Z.

End Dataset.

(* ================================================================== *)
(** ** Further definitions: decode loop *)
(* ================================================================== *)

Module DecodeProps.

(** A decoder that writes one letter per token. *)
Fixpoint letters_decode (ids : list Z) : string :=
  match ids with
  | [] => EmptyString
  | _ :: rest => String "a" (letters_decode rest)
  end.

End DecodeProps.

(* ================================================================== *)
(** ** Further definitions: streaming classifier *)
(* ================================================================== *)

Module StreamProps.

(** A text without colon and without newline. *)
Fixpoint plain (s : string) : bool :=
  match s with
  | EmptyString => true
  | String c rest =>
      negb (Ascii.eqb c PyString.colon) && negb (Ascii.eqb c PyString.newline)
      && plain rest
  end.

(** The end of the header of a call: the colon, the newline and the first
    piece of the arguments in one increment. *)
Definition call_header_tail : string :=
  String PyString.colon (String PyString.newline Stream.city_key).

End StreamProps.

(* ================================================================== *)
(** ** Reading a generated message ([generate_message]) *)
(* ================================================================== *)

Module Message.

Local Open Scope string_scope.

(** [c in chars]. *)
Fixpoint mem_char (c : ascii) (chars : string) : bool :=
  match chars with
  | EmptyString => false
  | String x rest => Ascii.eqb c x || mem_char c rest
  end.

(** [s.lstrip(chars)] and [s.rstrip(chars)]: the leading, or trailing,
    characters that occur in [chars] are removed. *)
Fixpoint lstrip_chars (chars s : string) : string :=
  match s with
  | EmptyString => EmptyString
  | String c rest => if mem_char c chars then lstrip_chars chars rest else s
  end.

Fixpoint rstrip_chars (chars s : string) : string :=
  match s with
  | EmptyString => EmptyString
  | String c rest =>
      match rstrip_chars chars rest with
      | EmptyString =>
          if mem_char c chars then EmptyString else String c EmptyString
      | String _ _ as rest' => String c rest'
      end
  end.

(** [s.split(":\n")], with the piece under construction in [cur]: the
    occurrences of the separator are taken from the left and do not
    overlap. *)
Fixpoint split_turn (s cur : string) : list string :=
  match s with
  | EmptyString => [cur]
  | String c rest =>
      match rest with
      | EmptyString => [cur ++ String c EmptyString]
      | String d rest' =>
          if Ascii.eqb c PyString.colon && Ascii.eqb d PyString.newline
          then cur :: split_turn rest' EmptyString
          else split_turn rest (cur ++ String c EmptyString)
      end
  end.

(** The [ChatMessage] that [generate_message] builds: the role, the
    content, and the name and arguments of a function call. *)
Record chat_message : Type := ChatMessage {
  role : string;
  content : option string;
  function_call : option (string * string)
}.

(** [generate_message] from the decoded text of the new tokens on
    ([model.generate] and [batch_decode] are external).  [None] is the
    [ValueError] of unpacking a split that has not exactly two pieces. *)
Definition generate_message (generated_content : string)
  : option chat_message :=
  if String.prefix "to=functions." generated_content then
    let function_call_content := PyString.string_drop 13 generated_content in
    match split_turn function_call_content EmptyString with
    | [function_name; arguments] =>
        Some (ChatMessage "assistant" None (Some (function_name, arguments)))
    | _ => None
    end
  else
    Some (ChatMessage "assistant"
            (Some (rstrip_chars (String PyString.newline " user:"
                                 ++ String PyString.newline EmptyString)
                     (lstrip_chars ("assistant:"
                                    ++ String PyString.newline EmptyString)
                        generated_content)))
            None).

(** The separator [":\n"] occurs in [s]. *)
Fixpoint contains_turn (s : string) : bool :=
  match s with
  | EmptyString => false
  | String c rest =>
      match rest with
      | EmptyString => false
      | String d _ =>
          (Ascii.eqb c PyString.colon && Ascii.eqb d PyString.newline)
          || contains_turn rest
      end
  end.

(** Every character of [s] occurs in [chars]. *)
Fixpoint all_in (chars s : string) : bool :=
  match s with
  | EmptyString => true
  | String c rest => mem_char c chars && all_in chars rest
  end.

Definition separator : string :=
  String PyString.colon (String PyString.newline EmptyString).
Definition leading_chars : string :=
  "assistant:" ++ String PyString.newline EmptyString.
Definition trailing_chars : string :=
  String PyString.newline " user:" ++ String PyString.newline EmptyString.

End Message.
(* ------------------------------------------------------------------ *)
(** *** Properties of the scan *)

Module MaskingFacts.
Import Masking.

Section Scan.
Variables end_assistant end_function_call : Z.
Variable prefix_token_ids : list (list Z).
Variable input_token_ids : list Z.

Local Abbreviation is_end := (is_end_of_turn end_assistant end_function_call).
Local Abbreviation span := (unmask_span end_assistant end_function_call input_token_ids).
Local Abbreviation iteration :=
  (scan_iteration end_assistant end_function_call prefix_token_ids input_token_ids).
Local Abbreviation run fuel :=
  (scan end_assistant end_function_call fuel prefix_token_ids input_token_ids).
Local Abbreviation after k :=
  (scan_after end_assistant end_function_call k prefix_token_ids input_token_ids).

Lemma unmask_span_length n i labels :
  length (span n i labels).1 = length labels.
Proof.
  revert i labels. induction n as [|n IH]; intros i labels; simpl; [done|].
  destruct (input_token_ids !! i) as [tok|]; [|done].
  destruct (is_end tok); simpl.
  - by rewrite length_insert.
  - by rewrite IH, length_insert.
Qed.

(** Without a closing marker the span runs to the end of its range and
    copies every token it passes. *)
Lemma unmask_span_no_end n i labels :
  Forall (fun tok => is_end tok = false) (drop i input_token_ids) ->
  (i + n <= length input_token_ids)%nat ->
  length labels = length input_token_ids ->
  (span n i labels).2 = None
  /\ (forall j, (i <= j < i + n)%nat ->
                (span n i labels).1 !! j = input_token_ids !! j)
  /\ (forall j, (j < i)%nat -> (span n i labels).1 !! j = labels !! j).
Proof.
  revert i labels. induction n as [|n IH]; intros i labels Hno Hle Hlen; simpl.
  { split; [done|]. split; [intros j ?; lia | done]. }
  destruct (input_token_ids !! i) as [tok|] eqn:Htok; cycle 1.
  { apply lookup_ge_None in Htok. lia. }
  assert (is_end tok = false) as ->.
  { rewrite Forall_lookup in Hno. apply (Hno O).
    by rewrite lookup_drop, Nat.add_0_r. }
  destruct (IH (S i) (<[i := tok]> labels)) as (Hnone & Hin & Hout).
  - rewrite Forall_lookup in Hno |- *. intros j x Hj.
    apply (Hno (S j)). rewrite lookup_drop in Hj |- *.
    by replace (i + S j)%nat with (S i + j)%nat by lia.
  - lia.
  - by rewrite length_insert.
  - repeat split; [done | |].
    + intros j Hj. destruct (decide (j = i)) as [->|Hne].
      * rewrite Hout by lia. rewrite list_lookup_insert_eq by lia. done.
      * apply Hin. lia.
    + intros j Hj. rewrite Hout by lia.
      apply list_lookup_insert_ne. lia.
Qed.

Lemma scan_iteration_length labels index labels' index' :
  iteration (labels, index) = inl (labels', index') ->
  length labels' = length labels.
Proof.
  unfold scan_iteration.
  destruct (index <? length input_token_ids)%nat; [|done].
  destruct (get_matching_prefix _ _) as [p|]; [|by intros [= <- _]].
  pose proof (unmask_span_length
                (length input_token_ids - (index + length p))
                (index + length p) labels) as Hlen.
  destruct (span _ _ labels) as [l' [e|]]; [|done].
  by intros [= <- _].
Qed.

Lemma scan_after_length k labels index labels' index' :
  after k (labels, index) = Some (labels', index') ->
  length labels' = length labels.
Proof.
  revert labels index. induction k as [|k IH]; intros labels index;
    cbn [scan_after].
  { by intros [= <- _]. }
  destruct (iteration (labels, index)) as [[l1 i1]|] eqn:Hit; [|done].
  intros Hk. rewrite (IH _ _ Hk). by eapply scan_iteration_length.
Qed.

(** Running [k] iterations and then [fuel] more is running [k + fuel]. *)
Lemma scan_after_scan k st st' fuel :
  after k st = Some st' -> run (k + fuel) st = run fuel st'.
Proof.
  revert st. induction k as [|k IH]; intros st; cbn [scan_after scan Nat.add].
  { by intros [= ->]. }
  destruct (iteration st) as [st1|]; [|done]. apply IH.
Qed.

Lemma get_matching_prefix_fits sequence_ids p :
  get_matching_prefix prefix_token_ids sequence_ids = Some p ->
  (length p <= length sequence_ids)%nat /\ take (length p) sequence_ids = p.
Proof.
  induction prefix_token_ids as [|q qs IH]; simpl; [done|].
  destruct (_ && _) eqn:Hc; [|done].
  intros [= <-]. apply andb_prop in Hc as [H1 H2].
  apply Nat.leb_le in H1. by apply bool_decide_eq_true in H2.
Qed.

Lemma unmask_span_end_index n i labels e :
  (span n i labels).2 = Some e -> (i <= e)%nat.
Proof.
  revert i labels. induction n as [|n IH]; intros i labels; simpl; [done|].
  destruct (input_token_ids !! i) as [tok|]; [|done].
  destruct (is_end tok); simpl.
  - intros [= <-]. lia.
  - intros He. apply IH in He. lia.
Qed.

(** With non-empty prefix patterns every iteration moves the index
    forward, so the scan returns within [length input_token_ids + 1]
    iterations. *)
Lemma scan_returns fuel : forall labels index,
  Forall (fun prefix => prefix <> []) prefix_token_ids ->
  (length input_token_ids - index < fuel)%nat ->
  exists final, run fuel (labels, index) = Returned final.
Proof.
  induction fuel as [|fuel IH]; intros labels index Hne Hfuel; [lia|].
  cbn [scan]. unfold scan_iteration.
  destruct (index <? length input_token_ids)%nat eqn:Hlt; [|by eexists].
  apply Nat.ltb_lt in Hlt.
  destruct (get_matching_prefix _ _) as [p|] eqn:Hmatch.
  - assert (p <> []) as Hp.
    { clear -Hne Hmatch. induction prefix_token_ids as [|q qs IHq]; [done|].
      apply Forall_cons in Hne as [Hq Hqs]. simpl in Hmatch.
      destruct (_ && _); [by injection Hmatch as <- | by apply IHq]. }
    pose proof (unmask_span_end_index
                  (length input_token_ids - (index + length p))
                  (index + length p) labels) as Hend.
    destruct (span _ _ labels) as [l' [e|]]; [|by eexists].
    specialize (Hend e eq_refl).
    apply IH; [done|]. destruct p; [done|]. simpl in Hend. lia.
  - apply IH; [done|lia].
Qed.

End Scan.

(** C1.  Truncated assistant span.  Suppose the scan of
    [get_masked_labels] stands, after [k] iterations, at a position [index]
    inside the sequence where a prefix pattern [p] matches, and no
    end-of-assistant-turn or end-of-function-call-turn token occurs from the
    end of the matched prefix to the end of the sequence.  Then that
    iteration leaves the loop through [break] (so no prefix is matched
    afterwards), the function returns, every position from the end of the
    matched prefix to the end of the sequence carries its token id as label,
    and the labels before it are the ones the scan had on arrival. *)
Theorem get_masked_labels_truncated_span
    (encode : string -> list Z) (EndToken_values : list string)
    (end_assistant end_function_call : Z)
    (input_token_ids : list Z) (prefix_token_ids : list (list Z))
    (k : nat) (labels : list Z) (index : nat) (p : list Z) :
  get_prefix_assistant_token_ids encode EndToken_values = Some prefix_token_ids ->
  scan_after end_assistant end_function_call k prefix_token_ids input_token_ids
             (initial_labels input_token_ids, O) = Some (labels, index) ->
  (index < length input_token_ids)%nat ->
  get_matching_prefix prefix_token_ids (drop index input_token_ids) = Some p ->
  Forall (fun tok => is_end_of_turn end_assistant end_function_call tok = false)
         (drop (index + length p) input_token_ids) ->
  exists final : list Z,
    scan_iteration end_assistant end_function_call prefix_token_ids
                   input_token_ids (labels, index) = inr final
    /\ (forall fuel, (k < fuel)%nat ->
          get_masked_labels encode EndToken_values end_assistant
                            end_function_call fuel input_token_ids
          = Returned final)
    /\ length final = length input_token_ids
    /\ (forall i, (index + length p <= i < length input_token_ids)%nat ->
                  final !! i = input_token_ids !! i)
    /\ (forall i, (i < index + length p)%nat -> final !! i = labels !! i).
Proof.
  intros Hprefixes Hafter Hlt Hmatch Hno.
  pose proof (scan_after_length _ _ _ _ _ _ _ _ _ Hafter) as Hlen.
  unfold initial_labels in Hlen. rewrite length_replicate in Hlen.
  pose proof (get_matching_prefix_fits _ _ _ Hmatch) as [Hfit _].
  rewrite length_drop in Hfit.
  set (start := (index + length p)%nat) in *.
  set (n := (length input_token_ids - start)%nat).
  destruct (unmask_span_no_end end_assistant end_function_call
              input_token_ids n start labels) as (Hnone & Hin & Hout);
    [done | lia | done |].
  pose proof (unmask_span_length end_assistant end_function_call
                input_token_ids n start labels) as Hlen'.
  assert (scan_iteration end_assistant end_function_call prefix_token_ids
            input_token_ids (labels, index)
          = inr (unmask_span end_assistant end_function_call
                   input_token_ids n start labels).1) as Hiter.
  { unfold scan_iteration.
    apply Nat.ltb_lt in Hlt as ->. rewrite Hmatch. fold start. fold n.
    destruct (unmask_span _ _ _ _ _ _) as [l' e]. simpl in *. by subst e. }
  eexists. split; [exact Hiter|]. split; [|split; [|split]].
  - intros fuel Hfuel. unfold get_masked_labels. rewrite Hprefixes.
    replace fuel with (k + S (fuel - S k))%nat by lia.
    rewrite (scan_after_scan _ _ _ _ _ _ _ _ Hafter).
    cbn [scan]. by rewrite Hiter.
  - by rewrite Hlen'.
  - intros i Hi. apply Hin. lia.
  - intros i Hi. by apply Hout.
Qed.

Lemma get_masked_labels_truncated_span_witness :
  exists final : list Z,
    Masking.get_masked_labels MaskingExample.encode
      MaskingExample.EndToken_values MaskingExample.end_assistant
      MaskingExample.end_function_call 2 MaskingExample.truncated_ids
    = Returned final
    /\ final = [IGNORE; IGNORE; IGNORE; 11%Z; 12%Z].
Proof.
  destruct (get_masked_labels_truncated_span
              MaskingExample.encode MaskingExample.EndToken_values
              MaskingExample.end_assistant MaskingExample.end_function_call
              MaskingExample.truncated_ids [[32001; 7]; [32002; 7]]%Z
              1 (replicate 5 IGNORE) 1 [32001; 7]%Z)
    as (final & Hbreak & Hrun & _);
    [reflexivity | reflexivity | simpl; lia | reflexivity
    | repeat constructor |].
  exists final. split; [apply Hrun; lia|].
  vm_compute in Hbreak. by injection Hbreak as <-.
Defined.

End MaskingFacts.

(* ------------------------------------------------------------------ *)
(** *** Properties of the packer *)

Module PackingFacts.
Import Packing.

Lemma enumerate_items_lookup lengths s j :
  enumerate_items s lengths !! j = (fun l => Item l (s + j)) <$> lengths !! j.
Proof.
  revert s j. induction lengths as [|l ls IH]; intros s [|j]; simpl; try done.
  - by rewrite Nat.add_0_r.
  - rewrite IH. by replace (S s + j)%nat with (s + S j)%nat by lia.
Qed.

Lemma enumerate_items_length lengths s :
  length (enumerate_items s lengths) = length lengths.
Proof. revert s. induction lengths; intros; simpl; auto. Qed.

(** The comprehension builds the items in index order already, so the
    sort leaves them as they are. *)
Lemma sorted_by_index_enumerate lengths s :
  sorted_by_index (enumerate_items s lengths) = enumerate_items s lengths.
Proof.
  revert s. induction lengths as [|l ls IH]; intros s; [done|].
  cbn [enumerate_items sorted_by_index foldr].
  fold (sorted_by_index (enumerate_items (S s) ls)). rewrite IH.
  destruct ls as [|l' ls']; [done|]. cbn.
  destruct (s <=? S s)%nat eqn:Hle; [done|].
  apply Nat.leb_gt in Hle. lia.
Qed.

(** The index loop over the enumerated items, started at position [a] with
    the remaining lengths [suf], computes the greedy grouping of [suf]. *)
Lemma pack_loop_greedy items max_length suf : forall a st,
  (forall j l, suf !! j = Some l -> items !! (a + j)%nat = Some (Item l (a + j))) ->
  close_last (foldl (pack_step items max_length) st (seq a (length suf)))
  = merges st ++ greedy_groups max_length a suf (current_sum st) (current_list st).
Proof.
  induction suf as [|l suf IH]; intros a [ms sum cur] Hitems; simpl.
  { unfold close_last; simpl. destruct cur; simpl; [by rewrite app_nil_r|done]. }
  pose proof (Hitems O l eq_refl) as H0. rewrite Nat.add_0_r in H0.
  unfold pack_step at 2. rewrite H0. simpl.
  assert (forall j l0, suf !! j = Some l0 ->
            items !! (S a + j)%nat = Some (Item l0 (S a + j))) as Hitems'.
  { intros j l0 Hj. specialize (Hitems (S j) l0 Hj).
    by replace (S a + j)%nat with (a + S j)%nat by lia. }
  rewrite (Z.add_comm l sum).
  destruct (sum + l <=? max_length)%Z.
  - by rewrite (IH (S a) _ Hitems').
  - rewrite (IH (S a) _ Hitems'). simpl. by rewrite <- app_assoc.
Qed.

(** Every index stored in a greedy group is one of the seed group or a
    position of the walked suffix. *)
Lemma greedy_groups_bound capacity n suf : forall a sum group,
  (a + length suf <= n)%nat ->
  Forall (fun i => (i < n)%nat) group ->
  Forall (Forall (fun i => (i < n)%nat)) (greedy_groups capacity a suf sum group).
Proof.
  induction suf as [|l suf IH]; intros a sum group Hn Hgroup; simpl in *.
  { destruct group; repeat constructor; by inversion Hgroup. }
  destruct (sum + l <=? capacity)%Z.
  - apply IH; [lia|]. apply Forall_app. split; [done|].
    repeat constructor. lia.
  - constructor; [done|]. apply IH; [lia|]. repeat constructor. lia.
Qed.

Lemma original_index_enumerate lengths i :
  (i < length lengths)%nat ->
  original_index (enumerate_items O lengths) i = i.
Proof.
  intros Hi. unfold original_index. rewrite enumerate_items_lookup.
  destruct (lookup_lt_is_Some_2 lengths i Hi) as [l ->]. done.
Qed.

(** The code computes the greedy grouping, for every input. *)
Lemma merge_data_points_by_length_greedy lengths max_length :
  merge_data_points_by_length lengths max_length = greedy_pack lengths max_length.
Proof.
  unfold merge_data_points_by_length, greedy_pack.
  rewrite sorted_by_index_enumerate, enumerate_items_length.
  rewrite (pack_loop_greedy _ max_length lengths O).
  2:{ intros j l Hj. cbn [Nat.add]. rewrite enumerate_items_lookup, Hj. done. }
  simpl.
  pose proof (greedy_groups_bound max_length (length lengths) lengths O 0%Z [])
    as Hb.
  specialize (Hb ltac:(simpl; lia) ltac:(constructor)).
  induction Hb as [|g gs Hg _ IH]; [done|]. simpl. f_equal; [|done].
  clear IH. induction Hg as [|i g Hi _ IH]; [done|]. simpl.
  by rewrite original_index_enumerate, IH.
Qed.

(** C4.  The packer is the greedy, order-preserving, single-pass grouping:
    for every list of lengths and every capacity it returns what the walk
    "add the next index while [running_sum + next_length <= capacity],
    otherwise close the group and start a new one with that index"
    returns; and on lengths [5,5,5,7] with capacity 10 the groups are
    [[0,1],[2],[3]]. *)
Theorem merge_data_points_by_length_is_greedy :
  (forall (lengths : list Z) (max_length : Z),
      merge_data_points_by_length lengths max_length
      = greedy_pack lengths max_length)
  /\ merge_data_points_by_length [5; 5; 5; 7]%Z 10%Z = [[0; 1]; [2]; [3]]%nat.
Proof. split; [apply merge_data_points_by_length_greedy | reflexivity]. Qed.

Lemma group_length_snoc lengths group i :
  group_length lengths (group ++ [i])
  = (group_length lengths group + default 0 (lengths !! i))%Z.
Proof.
  unfold group_length. induction group as [|j group IH]; simpl; [lia|].
  rewrite IH. lia.
Qed.

(** Capacity invariant of the greedy walk: the open group is empty or within
    capacity, and its running sum is the total length of its members. *)
Lemma greedy_groups_capacity capacity lengths suf : forall a sum group,
  (forall j l, suf !! j = Some l -> lengths !! (a + j)%nat = Some l) ->
  Forall (fun l => (l <= capacity)%Z) suf ->
  group_length lengths group = sum ->
  group = [] \/ (sum <= capacity)%Z ->
  Forall (fun g => (group_length lengths g <= capacity)%Z)
         (greedy_groups capacity a suf sum group).
Proof.
  induction suf as [|l suf IH]; intros a sum group Hsuf Hfit Hsum Hinv; simpl.
  { destruct group as [|i group]; [constructor|].
    repeat constructor. destruct Hinv as [?|?]; [done|lia]. }
  apply Forall_cons in Hfit as [Hl Hfit].
  pose proof (Hsuf O l eq_refl) as Ha. rewrite Nat.add_0_r in Ha.
  assert (forall j l0, suf !! j = Some l0 ->
            lengths !! (S a + j)%nat = Some l0) as Hsuf'.
  { intros j l0 Hj. specialize (Hsuf (S j) l0 Hj).
    by replace (S a + j)%nat with (a + S j)%nat by lia. }
  destruct (sum + l <=? capacity)%Z eqn:Hadd.
  - apply Z.leb_le in Hadd. apply IH; [done|done| |by right].
    rewrite group_length_snoc, Ha. simpl. lia.
  - apply Z.leb_gt in Hadd. constructor.
    + destruct Hinv as [->|?]; [|lia]. unfold group_length in *. simpl in *. lia.
    + apply IH; [done|done| |by right].
      unfold group_length. simpl. rewrite Ha. simpl. lia.
Qed.

(** C7, negative part.  The packer has no failure path, and it does return
    a group above capacity when a single sequence is longer than the
    capacity: lengths [11] with capacity 10 give the groups [[], [0]], the
    second of total length 11.  So "every group is within capacity, for
    every input" does not hold. *)
Lemma merge_data_points_by_length_over_capacity :
  merge_data_points_by_length [11]%Z 10%Z = [[]; [O]]
  /\ group_length [11]%Z [O] = 11%Z
  /\ ~ (forall (lengths : list Z) (max_length : Z),
          Forall (fun g => (group_length lengths g <= max_length)%Z)
                 (merge_data_points_by_length lengths max_length)).
Proof.
  split; [reflexivity|]. split; [reflexivity|].
  intros Hall. specialize (Hall [11]%Z 10%Z).
  apply Forall_cons in Hall as [_ Hall]. apply Forall_cons in Hall as [Hbad _].
  vm_compute in Hbad. by apply Hbad.
Qed.

(** C7, as amended.  When no single sequence is longer than the capacity,
    every group returned by the packer has a total member length of at most
    the capacity. *)
Theorem merge_data_points_by_length_capacity (lengths : list Z) (max_length : Z) :
  Forall (fun l => (l <= max_length)%Z) lengths ->
  Forall (fun g => (group_length lengths g <= max_length)%Z)
         (merge_data_points_by_length lengths max_length).
Proof.
  intros Hfit. rewrite merge_data_points_by_length_greedy. unfold greedy_pack.
  apply greedy_groups_capacity; [by intros j l Hj|done|done|by left].
Qed.

Lemma merge_data_points_by_length_capacity_witness :
  Forall (fun g => (group_length [5; 5; 5; 7]%Z g <= 10)%Z)
         (merge_data_points_by_length [5; 5; 5; 7]%Z 10%Z).
Proof.
  apply (merge_data_points_by_length_capacity [5; 5; 5; 7]%Z 10%Z).
  repeat constructor; lia.
Defined.

End PackingFacts.

(* ------------------------------------------------------------------ *)
(** *** Properties of the attention mask *)

Module AttentionMaskFacts.
Import AttentionMask.

Section Values.
Context {V : Type}.
Variables zero m_value : V.

Lemma entry_mat_imap (f : nat -> nat -> V -> V) (M : list (list V)) r c :
  entry (mat_imap f M) r c = f r c <$> entry M r c.
Proof.
  unfold entry, mat_imap. rewrite list_lookup_imap.
  destruct (M !! r) as [row|]; [|done].
  apply (list_lookup_imap (f r) row c).
Qed.

Lemma entry_full rows cols (v : V) r c :
  (r < rows)%nat -> (c < cols)%nat -> entry (full rows cols v) r c = Some v.
Proof.
  intros Hr Hc. unfold entry, full.
  rewrite lookup_replicate_2 by done. simpl. by apply lookup_replicate_2.
Qed.

Lemma entry_get_causal_mask length i j :
  (i < length)%nat -> (j < length)%nat ->
  entry (get_causal_mask zero length m_value) i j
  = Some (if (j <=? i)%nat then zero else m_value).
Proof.
  intros Hi Hj. unfold get_causal_mask.
  rewrite entry_mat_imap, entry_full by done. simpl.
  destruct (j <? i + 1)%nat eqn:H1, (j <=? i)%nat eqn:H2; try done;
    apply Nat.ltb_lt in H1 || apply Nat.ltb_ge in H1;
    apply Nat.leb_le in H2 || apply Nat.leb_gt in H2; lia.
Qed.

Lemma assign_block_fits (result : list (list V)) a l (x : list (list V)) :
  (a + l <= length result)%nat ->
  exists result',
    assign_block result a l x = Some result'
    /\ length result' = length result
    /\ forall r c,
        entry result' r c
        = (fun old =>
             if (a <=? r)%nat && (r <? a + l)%nat
                && (a <=? c)%nat && (c <? a + l)%nat
             then default old (entry x (r - a) (c - a)) else old)
            <$> entry result r c.
Proof.
  intros Hfit. unfold assign_block.
  replace (Nat.min (a + l) (length result) - Nat.min a (length result))%nat
    with l by lia.
  rewrite Nat.eqb_refl. simpl. eexists. split; [done|]. split.
  - unfold mat_imap. by rewrite length_imap.
  - intros r c. by rewrite entry_mat_imap.
Qed.

Lemma offset_S lengths k l :
  lengths !! k = Some l -> offset lengths (S k) = (offset lengths k + l)%nat.
Proof.
  intros Hk. unfold offset. rewrite (take_S_r _ _ _ Hk).
  rewrite sum_list_with_app. simpl. lia.
Qed.

Lemma offset_mono lengths k k' :
  (k <= k')%nat -> (offset lengths k <= offset lengths k')%nat.
Proof.
  intros Hle. unfold offset.
  replace k' with (k + (k' - k))%nat by lia.
  rewrite <- take_take_drop, sum_list_with_app. lia.
Qed.

Lemma offset_total lengths : offset lengths (length lengths) = sum_list lengths.
Proof. unfold offset. by rewrite take_ge. Qed.

Lemma in_segment_spec lengths k r :
  in_segment lengths k r = true <->
  exists l, lengths !! k = Some l
            /\ (offset lengths k <= r < offset lengths k + l)%nat.
Proof.
  unfold in_segment. destruct (lengths !! k) as [l|]; split.
  - intros [H1 H2]%andb_prop. apply Nat.leb_le in H1. apply Nat.ltb_lt in H2.
    exists l. split; [done|lia].
  - intros (l' & [= <-] & H1 & H2). apply andb_true_intro.
    split; [by apply Nat.leb_le | by apply Nat.ltb_lt].
  - done.
  - by intros (l' & ? & _).
Qed.

(** A position of segment [k] lies below the offset of every later one. *)
Lemma in_segment_below lengths k count r :
  in_segment lengths k r = true -> (k < count)%nat ->
  (r < offset lengths count)%nat.
Proof.
  intros (l & Hk & Hr)%in_segment_spec Hlt.
  pose proof (offset_mono lengths (S k) count ltac:(lia)) as Hm.
  rewrite (offset_S _ _ _ Hk) in Hm. lia.
Qed.

Lemma in_segment_unique lengths k1 k2 r :
  in_segment lengths k1 r = true -> in_segment lengths k2 r = true -> k1 = k2.
Proof.
  intros H1 H2. destruct (Nat.lt_trichotomy k1 k2) as [Hlt|[->|Hlt]]; [|done|].
  - pose proof (in_segment_below _ _ _ _ H1 Hlt).
    apply in_segment_spec in H2 as (l & _ & ?). lia.
  - pose proof (in_segment_below _ _ _ _ H2 Hlt).
    apply in_segment_spec in H1 as (l & _ & ?). lia.
Qed.

Lemma block_open_spec lengths count r c :
  block_open lengths count r c = true <->
  exists k, (k < count)%nat /\ in_segment lengths k r = true
            /\ in_segment lengths k c = true /\ (c <= r)%nat.
Proof.
  unfold block_open. rewrite existsb_exists. split.
  - intros (k & Hin & [[H1 H2]%andb_prop H3]%andb_prop).
    apply in_seq in Hin. apply Nat.leb_le in H3.
    exists k. repeat split; [lia|done|done|done].
  - intros (k & Hk & H1 & H2 & H3). exists k. split.
    + apply in_seq. lia.
    + rewrite H1, H2. simpl. by apply Nat.leb_le.
Qed.

Lemma block_open_S lengths count r c :
  block_open lengths (S count) r c
  = block_open lengths count r c
    || (in_segment lengths count r && in_segment lengths count c
        && (c <=? r)%nat).
Proof.
  unfold block_open. rewrite seq_S, existsb_app. simpl.
  by rewrite orb_false_r.
Qed.

Lemma place_blocks_inv (n : nat) (lengths : list nat) :
  forall rest done M,
    lengths = done ++ rest ->
    (sum_list lengths <= n)%nat ->
    mask_inv zero m_value lengths n (length done) M ->
    exists M',
      place_blocks zero rest m_value (offset lengths (length done)) M = Some M'
      /\ mask_inv zero m_value lengths n (length lengths) M'.
Proof.
  induction rest as [|l rest IH]; intros done M Hl Hsum Hinv.
  { exists M. split; [done|]. rewrite app_nil_r in Hl. by subst done. }
  assert (lengths !! length done = Some l) as Hk.
  { rewrite Hl. by rewrite list_lookup_middle. }
  set (a := offset lengths (length done)) in *.
  assert (a + l <= n)%nat as Hfit.
  { pose proof (offset_mono lengths (S (length done)) (length lengths)) as Hm.
    rewrite (offset_S _ _ _ Hk), offset_total in Hm. fold a in Hm.
    assert (S (length done) <= length lengths)%nat.
    { rewrite Hl, length_app. simpl. lia. }
    lia. }
  destruct Hinv as [HlenM HM]. cbn [place_blocks].
  destruct (assign_block_fits M a l (get_causal_mask zero l m_value))
    as (M1 & -> & Hlen1 & Hentry1); [lia|].
  specialize (IH (done ++ [l]) M1).
  rewrite length_app in IH. simpl in IH. rewrite Nat.add_1_r in IH.
  rewrite (offset_S _ _ _ Hk) in IH. fold a in IH.
  apply IH; [by rewrite <- app_assoc | done |].
  split; [lia|]. intros r c Hr Hc.
  rewrite Hentry1, (HM r c Hr Hc), block_open_S. simpl. f_equal.
  assert (forall x, in_segment lengths (length done) x
                    = (a <=? x)%nat && (x <? a + l)%nat) as Hseg.
  { intros x. unfold in_segment. by rewrite Hk. }
  rewrite !Hseg.
  destruct (a <=? r)%nat eqn:Hr1; simpl; [|by rewrite orb_false_r].
  destruct (r <? a + l)%nat eqn:Hr2; simpl; [|by rewrite orb_false_r].
  destruct (a <=? c)%nat eqn:Hc1; simpl; [|by rewrite orb_false_r].
  destruct (c <? a + l)%nat eqn:Hc2; simpl; [|by rewrite orb_false_r].
  apply Nat.leb_le in Hr1, Hc1. apply Nat.ltb_lt in Hr2, Hc2.
  rewrite entry_get_causal_mask by lia. simpl.
  destruct (block_open lengths (length done) r c) eqn:Hopen.
  { apply block_open_spec in Hopen as (k & Hk' & Hkr & _).
    pose proof (in_segment_below _ _ _ _ Hkr Hk'). fold a in H. lia. }
  simpl.
  destruct (c - a <=? r - a)%nat eqn:H1, (c <=? r)%nat eqn:H2; try done;
    apply Nat.leb_le in H1 || apply Nat.leb_gt in H1;
    apply Nat.leb_le in H2 || apply Nat.leb_gt in H2; lia.
Qed.

(** Every entry of the finished mask, for segments that fit. *)
Lemma create_mask_from_lengths_entries (lengths : list nat) (max_length : nat) :
  (sum_list lengths <= max_length)%nat ->
  exists M,
    create_mask_from_lengths zero lengths max_length m_value = Some M
    /\ forall r c, (r < max_length)%nat -> (c < max_length)%nat ->
         entry M r c
         = Some (if (sum_list lengths <=? c)%nat then m_value
                 else if (sum_list lengths <=? r)%nat then zero
                 else if block_open lengths (length lengths) r c then zero
                 else m_value).
Proof.
  intros Hsum. unfold create_mask_from_lengths.
  destruct (place_blocks_inv max_length lengths lengths [] 
              (full max_length max_length m_value))
    as (M & HM & Hlen & Hentries); [done|done| |].
  { split; [apply length_replicate|]. intros r c Hr Hc.
    by rewrite entry_full. }
  change (offset lengths (length [])) with O in HM. rewrite HM.
  destruct (0 <? _)%Z eqn:Hpad.
  - apply Z.ltb_lt in Hpad.
    replace (max_length - Z.to_nat (Z.of_nat max_length
                                    - Z.of_nat (sum_list lengths)))%nat
      with (sum_list lengths) by lia.
    eexists. split; [done|]. intros r c Hr Hc.
    unfold fill_cols_from, fill_rows_from.
    rewrite !entry_mat_imap, (Hentries r c Hr Hc).
    generalize (sum_list lengths). intros s. simpl.
    by destruct (s <=? c)%nat, (s <=? r)%nat.
  - apply Z.ltb_ge in Hpad. exists M. split; [done|]. intros r c Hr Hc.
    rewrite (Hentries r c Hr Hc).
    destruct (sum_list lengths <=? c)%nat eqn:H1; [apply Nat.leb_le in H1; lia|].
    destruct (sum_list lengths <=? r)%nat eqn:H2; [apply Nat.leb_le in H2; lia|].
    done.
Qed.

Lemma segment_below_total (lengths : list nat) k l x :
  lengths !! k = Some l -> (x < offset lengths k + l)%nat ->
  (x < sum_list lengths)%nat.
Proof.
  intros Hk Hx. pose proof (lookup_lt_Some _ _ _ Hk) as Hlt.
  pose proof (offset_mono lengths (S k) (length lengths) ltac:(lia)) as Hm.
  rewrite (offset_S _ _ _ Hk), offset_total in Hm. lia.
Qed.

End Values.

(** C3, negative part.  A padding row is not entirely 0: the assignment of
    the fill value to the padding columns comes after the assignment of 0
    to the padding rows and covers the corner they share.  One segment of
    length 1 in a capacity of 2 gives the rows [0, m] and [0, m]; the entry
    at padding row 1, column 1 is the fill value. *)
Lemma create_mask_from_lengths_padding_corner :
  create_mask_from_lengths 0%Z [1]%nat 2 (-1)%Z
  = Some [[0; -1]; [0; -1]]%Z
  /\ ~ (forall (lengths : list nat) (max_length : nat) (M : list (list Z)),
          (sum_list lengths <= max_length)%nat ->
          create_mask_from_lengths 0%Z lengths max_length (-1)%Z = Some M ->
          forall r c, (sum_list lengths <= r < max_length)%nat ->
                      (c < max_length)%nat ->
                      entry M r c = Some 0%Z).
Proof.
  split; [reflexivity|]. intros Hall.
  specialize (Hall [1]%nat 2%nat _ ltac:(simpl; lia) eq_refl 1%nat 1%nat
                   ltac:(simpl; lia) ltac:(lia)).
  discriminate Hall.
Qed.

(** C3, as amended.  For segment lengths whose sum is at most the capacity
    the mask is built, and: inside the segment at cumulative offset [O] with
    length [L], entry [(O+i, O+j)] is 0 when [j <= i] and the fill value
    otherwise (so, the fill value being other than 0, it is 0 iff
    [j <= i]); an entry whose row and column lie in two distinct segments is
    the fill value; a padding row is 0 in every column that is not a padding
    column; a padding column is the fill value in every row. *)
Theorem create_mask_from_lengths_structure {V : Type} (zero m_value : V)
    (lengths : list nat) (max_length : nat) :
  (sum_list lengths <= max_length)%nat ->
  exists M : list (list V),
    create_mask_from_lengths zero lengths max_length m_value = Some M
    /\ (forall k l i j,
          lengths !! k = Some l -> (i < l)%nat -> (j < l)%nat ->
          entry M (offset lengths k + i) (offset lengths k + j)
          = Some (if (j <=? i)%nat then zero else m_value)
          /\ (m_value <> zero ->
              (entry M (offset lengths k + i) (offset lengths k + j) = Some zero
               <-> (j <= i)%nat)))
    /\ (forall k1 k2 l1 l2 r c,
          k1 <> k2 ->
          lengths !! k1 = Some l1 -> lengths !! k2 = Some l2 ->
          (offset lengths k1 <= r < offset lengths k1 + l1)%nat ->
          (offset lengths k2 <= c < offset lengths k2 + l2)%nat ->
          entry M r c = Some m_value)
    /\ (forall r c,
          (sum_list lengths <= r < max_length)%nat ->
          (c < sum_list lengths)%nat ->
          entry M r c = Some zero)
    /\ (forall r c,
          (r < max_length)%nat ->
          (sum_list lengths <= c < max_length)%nat ->
          entry M r c = Some m_value).
Proof.
  intros Hsum.
  destruct (create_mask_from_lengths_entries zero m_value lengths max_length Hsum)
    as (M & HM & Hentries).
  exists M. split; [done|].
  assert (forall x, (x < sum_list lengths)%nat ->
                    (sum_list lengths <=? x)%nat = false) as Hreal.
  { intros x Hx. by apply Nat.leb_gt. }
  assert (forall k l i j,
             lengths !! k = Some l -> (i < l)%nat -> (j < l)%nat ->
             entry M (offset lengths k + i) (offset lengths k + j)
             = Some (if (j <=? i)%nat then zero else m_value)) as Hwithin.
  { intros k l i j Hk Hi Hj.
    pose proof (segment_below_total lengths k l (offset lengths k + i) Hk
                  ltac:(lia)) as Hr.
    pose proof (segment_below_total lengths k l (offset lengths k + j) Hk
                  ltac:(lia)) as Hc.
    rewrite Hentries, !Hreal by lia. f_equal.
    destruct (block_open _ _ _ _) eqn:Hopen.
    - apply block_open_spec in Hopen as (k' & _ & _ & _ & Hle).
      assert ((j <=? i)%nat = true) as ->; [apply Nat.leb_le; lia | done].
    - destruct (j <=? i)%nat eqn:Hji; [|done]. apply Nat.leb_le in Hji.
      assert (block_open lengths (length lengths) (offset lengths k + i)
                         (offset lengths k + j) = true) as Habs; [|congruence].
      apply block_open_spec. exists k.
      split; [apply (lookup_lt_Some _ _ _ Hk)|].
      split; [apply in_segment_spec; exists l; split; [done|lia]|].
      split; [apply in_segment_spec; exists l; split; [done|lia]|lia]. }
  split; [|split; [|split]].
  - intros k l i j Hk Hi Hj. split; [by apply (Hwithin k l)|].
    intros Hm. rewrite (Hwithin k l i j Hk Hi Hj).
    destruct (j <=? i)%nat eqn:Hji.
    + apply Nat.leb_le in Hji. done.
    + apply Nat.leb_gt in Hji. split; [intros [= ?]; done | lia].
  - intros k1 k2 l1 l2 r c Hne Hk1 Hk2 Hr Hc.
    pose proof (segment_below_total lengths k1 l1 r Hk1 ltac:(lia)).
    pose proof (segment_below_total lengths k2 l2 c Hk2 ltac:(lia)).
    rewrite Hentries, !Hreal by lia. f_equal.
    destruct (block_open _ _ _ _) eqn:Hopen; [|done].
    apply block_open_spec in Hopen as (k & _ & Hkr & Hkc & _).
    assert (in_segment lengths k1 r = true) as H1.
    { apply in_segment_spec. by exists l1. }
    assert (in_segment lengths k2 c = true) as H2.
    { apply in_segment_spec. by exists l2. }
    pose proof (in_segment_unique _ _ _ _ Hkr H1).
    pose proof (in_segment_unique _ _ _ _ Hkc H2). congruence.
  - intros r c Hr Hc. rewrite Hentries, (Hreal c) by lia.
    assert ((sum_list lengths <=? r)%nat = true) as ->; [|done].
    apply Nat.leb_le. lia.
  - intros r c Hr Hc. rewrite Hentries by lia.
    assert ((sum_list lengths <=? c)%nat = true) as ->; [|done].
    apply Nat.leb_le. lia.
Qed.

Lemma create_mask_from_lengths_structure_witness :
  exists M : list (list Z),
    create_mask_from_lengths 0%Z [2; 1]%nat 5 (-1)%Z = Some M
    /\ entry M 1 0 = Some 0%Z
    /\ entry M 2 1 = Some (-1)%Z
    /\ entry M 3 1 = Some 0%Z
    /\ entry M 3 4 = Some (-1)%Z.
Proof.
  destruct (create_mask_from_lengths_structure 0%Z (-1)%Z [2; 1]%nat 5%nat)
    as (M & HM & Hwithin & Hcross & Hrows & Hcols); [simpl; lia|].
  exists M. split; [exact HM|]. split; [|split; [|split]].
  - exact (proj1 (Hwithin O 2%nat 1%nat O eq_refl ltac:(lia) ltac:(lia))).
  - apply (Hcross 1%nat O 1%nat 2%nat 2%nat 1%nat ltac:(lia) eq_refl eq_refl);
      unfold offset; simpl; lia.
  - apply Hrows; simpl; lia.
  - apply Hcols; simpl; lia.
Defined.

End AttentionMaskFacts.

(* ------------------------------------------------------------------ *)
(** *** Properties of the streaming classifier *)

Module StreamFacts.
Import Stream.

Lemma string_app_assoc (a b c : string) : (a +:+ b) +:+ c = a +:+ (b +:+ c).
Proof.
  induction a as [|x a IH]; [done|].
  change (String x ((a +:+ b) +:+ c) = String x (a +:+ (b +:+ c))).
  by f_equal.
Qed.

Lemma string_app_empty_r (a : string) : a +:+ EmptyString = a.
Proof.
  induction a as [|x a IH]; [done|].
  change (String x (a +:+ EmptyString) = String x a). by f_equal.
Qed.

Lemma consume_app st xs ys :
  consume st (xs ++ ys) = consume st xs ++ consume (advance st xs) ys.
Proof.
  revert st. induction xs as [|[item reason] xs IH]; intros st; [done|].
  cbn [consume advance app].
  destruct (classify st item reason) as [st' [r|]]; simpl; by rewrite IH.
Qed.

(** While the accumulated text neither equals the turn separator (after
    left-trimming) nor holds the function pattern, an item yields nothing
    and the session stays undetermined, whatever its finish reason. *)
Lemma classify_undetermined st item reason :
  response_type st = None ->
  determines (cur_text st +:+ item) = false ->
  classify st item reason
  = (State (cur_text st +:+ item) (func_name st) None, None).
Proof.
  intros Hnone Hdet. unfold classify. rewrite Hnone.
  unfold determines in Hdet. apply orb_false_elim in Hdet as [-> Hsearch].
  by destruct (PyString.search_function _).
Qed.

Lemma consume_undetermined items : forall st,
  response_type st = None ->
  Forall (fun text => determines text = false) (accumulated (cur_text st) items) ->
  consume st items = []
  /\ advance st items
     = State (cur_text st +:+ text_of items) (func_name st) None.
Proof.
  induction items as [|[item reason] items IH]; intros st Hnone Hall.
  { simpl. rewrite string_app_empty_r. by destruct st; simpl in *; subst. }
  cbn [accumulated] in Hall. apply Forall_cons in Hall as [Hdet Hall].
  cbn [consume advance text_of].
  rewrite (classify_undetermined st item reason Hnone Hdet).
  cbn [fst snd].
  destruct (IH (State (cur_text st +:+ item) (func_name st) None) eq_refl Hall)
    as [-> ->].
  split; [done|]. cbn [cur_text func_name]. by rewrite string_app_assoc.
Qed.

(** A session that never leaves the undetermined state yields no response
    at all: no content, no arguments, and no closing response either. *)
Lemma classify_stream_undetermined_silent items :
  Forall (fun text => determines text = false) (accumulated EmptyString items) ->
  classify_stream items = [].
Proof. intros Hall. by apply (consume_undetermined items initial eq_refl). Qed.

(** In the function-call state an item that carries a finish reason yields
    the closing response with reason "function_call", whatever the reason
    of the decode loop was. *)
Lemma classify_function_close st item reason :
  response_type st = Some KFunction ->
  (classify st item (Some reason)).2 = Some (closing "function_call").
Proof. intros Hf. unfold classify. by rewrite Hf. Qed.

(** The item that completes the header [to=functions.get_weather:] and its
    newline opens the function call. *)
Lemma classify_header st last :
  response_type st = None ->
  cur_text st +:+ last = call_header ->
  classify st last None
  = (State call_header (Some "get_weather"%string) (Some KFunction),
     Some (open_function "get_weather")).
Proof. intros Hnone Htext. unfold classify. rewrite Hnone, Htext. reflexivity. Qed.

(** C2, negative part.  When the text up to the first piece of the
    arguments arrives as one increment, the piece of the arguments that
    shares the increment with the header is not emitted: the session yields
    three responses, not four.  So the four responses do not follow for
    every run of increments that accumulates to the header and [{"city":]. *)
Lemma classify_stream_header_with_arguments :
  classify_stream [(call_header +:+ city_key, None); (city_value, None);
                   (EmptyString, Some "stop"%string)]
  = [open_function "get_weather"; arguments_delta "get_weather" city_value;
     closing "function_call"]
  /\ ~ (forall texts : list string,
          text_of (increments texts) = call_header +:+ city_key ->
          classify_stream (increments texts
                           ++ [(city_value, None);
                               (EmptyString, Some "stop"%string)])
          = [open_function "get_weather";
             arguments_delta "get_weather" city_key;
             arguments_delta "get_weather" city_value;
             closing "function_call"]).
Proof.
  split; [reflexivity|]. intros Hall.
  specialize (Hall [call_header +:+ city_key] eq_refl). discriminate Hall.
Qed.

(** C2, as amended.  When the increments bring the header
    [to=functions.get_weather:] with its newline (in any number of pieces,
    the session staying undetermined before the last of them), then
    [{"city":] as an increment of its own, then ["NYC"}], then an empty
    increment with finish reason "stop", the responses are exactly: the
    opening function response with name "get_weather" and empty arguments,
    the arguments response carrying [{"city":], the arguments response
    carrying ["NYC"}], and the closing response with reason
    "function_call".  And in the function-call state every finish reason
    of the decode loop is replaced by "function_call". *)
Theorem classify_stream_scenario_B (texts : list string) (last : string) :
  text_of (increments texts) +:+ last = call_header ->
  Forall (fun text => determines text = false)
         (accumulated EmptyString (increments texts)) ->
  classify_stream (increments (texts ++ [last; city_key; city_value])
                   ++ [(EmptyString, Some "stop"%string)])
  = [open_function "get_weather";
     arguments_delta "get_weather" city_key;
     arguments_delta "get_weather" city_value;
     closing "function_call"]
  /\ (forall st item reason,
        response_type st = Some KFunction ->
        (classify st item (Some reason)).2 = Some (closing "function_call")).
Proof.
  intros Htext Hquiet. split; [|apply classify_function_close].
  unfold classify_stream, increments. rewrite map_app, <- app_assoc.
  rewrite consume_app.
  destruct (consume_undetermined (increments texts) initial eq_refl Hquiet)
    as [Hnil Hadv].
  unfold increments in Hnil, Hadv. rewrite Hnil, Hadv.
  cbn [map app consume].
  rewrite classify_header; [reflexivity | reflexivity | exact Htext].
Qed.

Lemma classify_stream_scenario_B_witness :
  classify_stream
    (increments (["to=functions."; "get_weather"]%string
                 ++ [String ":" (String PyString.newline EmptyString);
                     city_key; city_value])
     ++ [(EmptyString, Some "stop"%string)])
  = [open_function "get_weather";
     arguments_delta "get_weather" city_key;
     arguments_delta "get_weather" city_value;
     closing "function_call"].
Proof.
  apply (classify_stream_scenario_B
           ["to=functions."; "get_weather"]%string
           (String ":" (String PyString.newline EmptyString)));
    [reflexivity | repeat constructor].
Defined.

(** C9.  A session that produces the word "hello" and then the stop token
    never leaves the undetermined state.  The decode loop yields the
    increment and the final pair with reason "stop"; the classifier yields
    nothing, so no closing response reaches the consumer. *)
Theorem generate_stream_undetermined_yields_nothing :
  Decode.generate_text_stream Decode.hello_sample Decode.hello_decode 2%Z
                              [1%Z] 8
  = [("hello"%string, None); (EmptyString, Some "stop"%string)]
  /\ generate_stream Decode.hello_sample Decode.hello_decode 2%Z [1%Z] 8 = [].
Proof. split; reflexivity. Qed.

End StreamFacts.

(* ------------------------------------------------------------------ *)
(** *** Properties of the decode loop *)

Module DecodeFacts.
Import Decode.

Section Session.
Variable sample : list Z -> Z.
Variable decode : list Z -> string.
Variable eos_token_id : Z.

Lemma ids_at_shift input_ids i :
  ids_at sample input_ids (S i)
  = ids_at sample (input_ids ++ [sample input_ids]) i.
Proof.
  induction i as [|i IH]; [done|].
  cbn [ids_at] in *. by rewrite <- IH.
Qed.

Lemma token_at_shift input_ids i :
  token_at sample input_ids (S i)
  = token_at sample (input_ids ++ [sample input_ids]) i.
Proof. unfold token_at. by rewrite ids_at_shift. Qed.

Lemma increment_at_shift input_ids i :
  increment_at sample decode input_ids (S i)
  = increment_at sample decode (input_ids ++ [sample input_ids]) i.
Proof. unfold increment_at. by rewrite token_at_shift, ids_at_shift. Qed.

(** The loop up to the first stop token, met at step [k]. *)
Lemma decode_steps_stop k : forall steps input_ids,
  (k < steps)%nat ->
  (forall i, (i < k)%nat -> token_at sample input_ids i <> eos_token_id) ->
  token_at sample input_ids k = eos_token_id ->
  decode_steps sample decode eos_token_id steps input_ids
  = (map (fun i => (increment_at sample decode input_ids i, None)) (seq O k),
     true).
Proof.
  induction k as [|k IH]; intros steps input_ids Hlt Hbefore Hstop.
  - destruct steps as [|steps]; [lia|]. cbn [decode_steps].
    unfold token_at in Hstop. cbn [ids_at] in Hstop. rewrite Hstop.
    by rewrite Z.eqb_refl.
  - destruct steps as [|steps]; [lia|]. cbn [decode_steps].
    pose proof (Hbefore O ltac:(lia)) as H0.
    unfold token_at in H0. cbn [ids_at] in H0.
    apply Z.eqb_neq in H0. rewrite H0.
    rewrite (IH steps (input_ids ++ [sample input_ids])); [|lia| |].
    + cbn [seq map]. rewrite <- seq_shift, map_map. f_equal. f_equal.
      apply map_ext. intros i. by rewrite increment_at_shift.
    + intros i Hi. rewrite <- token_at_shift. apply Hbefore. lia.
    + by rewrite <- token_at_shift.
Qed.

(** The loop when no stop token comes within [steps] rounds. *)
Lemma decode_steps_exhausted steps : forall input_ids,
  (forall i, (i < steps)%nat -> token_at sample input_ids i <> eos_token_id) ->
  decode_steps sample decode eos_token_id steps input_ids
  = (map (fun i => (increment_at sample decode input_ids i, None)) (seq O steps),
     false).
Proof.
  induction steps as [|steps IH]; intros input_ids Hnever; [done|].
  cbn [decode_steps].
  pose proof (Hnever O ltac:(lia)) as H0.
  unfold token_at in H0. cbn [ids_at] in H0.
  apply Z.eqb_neq in H0. rewrite H0.
  rewrite (IH (input_ids ++ [sample input_ids])).
  - cbn [seq map]. rewrite <- seq_shift, map_map. f_equal. f_equal.
    apply map_ext. intros i. by rewrite increment_at_shift.
  - intros i Hi. rewrite <- token_at_shift. apply Hnever. lia.
Qed.

(** C10.  In a session whose first stop token is produced at step [k],
    within the step budget, the stream is the [k] increments of the steps
    before [k], each with finish reason [None], followed at once by the
    final pair of the empty text and "stop".  The increment computed at
    step [k] itself is not among the yielded pairs. *)
Theorem generate_text_stream_drops_stop_increment
    (input_ids : list Z) (max_new_tokens k : nat) :
  (k < max_new_tokens)%nat ->
  (forall i, (i < k)%nat -> token_at sample input_ids i <> eos_token_id) ->
  token_at sample input_ids k = eos_token_id ->
  generate_text_stream sample decode eos_token_id input_ids max_new_tokens
  = map (fun i => (increment_at sample decode input_ids i, None)) (seq O k)
    ++ [(EmptyString, Some "stop"%string)].
Proof.
  intros Hlt Hbefore Hstop. unfold generate_text_stream.
  by rewrite (decode_steps_stop k max_new_tokens input_ids Hlt Hbefore Hstop).
Qed.

(** The part of the finish-reason contract that the loop keeps: a session
    that runs out of steps ends with the empty text and the reason the code
    spells "lenghth"; every earlier pair has no reason. *)
Lemma generate_text_stream_exhausted (input_ids : list Z) (max_new_tokens : nat) :
  (forall i, (i < max_new_tokens)%nat ->
             token_at sample input_ids i <> eos_token_id) ->
  generate_text_stream sample decode eos_token_id input_ids max_new_tokens
  = map (fun i => (increment_at sample decode input_ids i, None))
        (seq O max_new_tokens)
    ++ [(EmptyString, Some "lenghth"%string)].
Proof.
  intros Hnever. unfold generate_text_stream.
  by rewrite (decode_steps_exhausted max_new_tokens input_ids Hnever).
Qed.

End Session.

Lemma generate_text_stream_drops_stop_increment_witness :
  generate_text_stream hello_sample hello_decode 2%Z [1%Z] 8
  = [("hello"%string, None); (EmptyString, Some "stop"%string)]
  /\ increment_at hello_sample hello_decode [1%Z] 1 = "!"%string.
Proof.
  split; [|reflexivity].
  apply (generate_text_stream_drops_stop_increment
           hello_sample hello_decode 2%Z [1%Z] 8 1).
  - lia.
  - intros i Hi. assert (i = O) as -> by lia. vm_compute. discriminate.
  - reflexivity.
Defined.

(** C5.  A session that exhausts its two steps without a stop token: the
    final pair carries the empty text and the reason "lenghth", which is
    not the reason "length". *)
Theorem generate_text_stream_length_reason :
  generate_text_stream endless_sample endless_decode 2%Z [1%Z] 2
  = [("a"%string, None); ("a"%string, None);
     (EmptyString, Some "lenghth"%string)]
  /\ last (generate_text_stream endless_sample endless_decode 2%Z [1%Z] 2)
     <> Some (EmptyString, Some "length"%string).
Proof. split; [reflexivity | discriminate]. Qed.

End DecodeFacts.

(* ------------------------------------------------------------------ *)
(** *** Padding side of packed items *)

Module MergeFacts.
Import Merge.

(** C8.  With a tokenizer that pads on the left, the token ids and labels
    of a packed item are padded in front, while the mask keeps its padding
    at the end: the one real token sits at position 1, and column 1 of the
    mask is the forbidden padding column, row 1 the open padding row.  The
    mask is the one built for right padding. *)
Theorem merge_data_points_left_padding :
  merge_data_points 0%Z (-1)%Z [single_token_point] left_tokenizer
  = Some (PackedItem [0; 7]%Z [-100; -100]%Z [[[0; -1]; [0; -1]]]%Z)
  /\ merge_data_points 0%Z (-1)%Z [single_token_point] right_tokenizer
     = Some (PackedItem [7; 0]%Z [-100; -100]%Z [[[0; -1]; [0; -1]]]%Z).
Proof. split; reflexivity. Qed.

End MergeFacts.

(* ------------------------------------------------------------------ *)
(** *** Cache reuse *)

Module CacheFacts.
Import Merge Cache.

Lemma truncate_lengths n item :
  (length (input_ids (truncate n item)) <= n)%nat
  /\ (length (labels (truncate n item)) <= n)%nat
  /\ (length (attention_mask (truncate n item)) <= n)%nat.
Proof. unfold truncate. simpl. rewrite !length_take. lia. Qed.

(** What keeps the packer within capacity on the cached path: [load] cuts
    every record to the requested length before it packs, so every group
    of a loaded data set fits. *)
Lemma load_groups_within_capacity tok f ds lengths groups :
  load tok f = Some ds ->
  packing ds = Some (lengths, groups) ->
  Forall (fun g => (Packing.group_length lengths g
                    <= Z.of_nat (model_max_length tok))%Z) groups.
Proof.
  unfold load. destruct (read_max_length_from_cached f) as [cached|]; [|done].
  destruct (_ <=? _)%Z; [|done].
  destruct (inputs_jsonl f) as [items|]; [|done].
  intros [= <-]. unfold pack_data_points. simpl. intros [= <- <-].
  rewrite PackingFacts.merge_data_points_by_length_greedy.
  apply PackingFacts.greedy_groups_capacity; [by intros j l Hj| |done|by left].
  apply Forall_forall. intros l Hl.
  apply list_elem_of_fmap in Hl as (item & -> & Hitem).
  apply list_elem_of_filter in Hitem as [_ Hitem].
  apply list_elem_of_fmap in Hitem as (item0 & -> & _).
  pose proof (truncate_lengths (model_max_length tok) item0). lia.
Qed.




End CacheFacts.

(* ================================================================== *)
(** * Further properties *)
(* ================================================================== *)

(* ------------------------------------------------------------------ *)
(** *** Label masking: prefix matching, shape, termination, spans *)

Module MaskingExtra.
Import Masking MaskingFacts.

Lemma starts_with_prefix_of (p s : list Z) :
  (length p <=? length s)%nat && bool_decide (take (length p) s = p) = true
  <-> p `prefix_of` s.
Proof.
  split.
  - intros [_ Htake%bool_decide_eq_true]%andb_prop.
    exists (drop (length p) s). by rewrite <- Htake at 1; rewrite take_drop.
  - intros [k ->]. apply andb_true_intro. split.
    + apply Nat.leb_le. rewrite length_app. lia.
    + apply bool_decide_eq_true. by rewrite take_app_length.
Qed.

(** X1.  [get_matching_prefix] returns the first pattern, in list order,
    that the sequence starts with, and [None] exactly when the sequence
    starts with none of them. *)
Theorem get_matching_prefix_first (prefix_tokens : list (list Z))
    (sequence_ids : list Z) :
  match get_matching_prefix prefix_tokens sequence_ids with
  | Some p =>
      exists before after,
        prefix_tokens = before ++ p :: after
        /\ p `prefix_of` sequence_ids
        /\ Forall (fun q => ~ q `prefix_of` sequence_ids) before
  | None => Forall (fun q => ~ q `prefix_of` sequence_ids) prefix_tokens
  end.
Proof.
  induction prefix_tokens as [|q qs IH]; simpl; [constructor|].
  destruct (_ && _) eqn:Hq.
  - exists [], qs. split; [done|]. split; [|constructor].
    by apply starts_with_prefix_of.
  - assert (~ q `prefix_of` sequence_ids) as Hnot.
    { intros H%starts_with_prefix_of. congruence. }
    destruct (get_matching_prefix qs sequence_ids) as [p|].
    + destruct IH as (before & after & -> & Hp & Hbefore).
      exists (q :: before), after. split; [done|]. split; [done|].
      by constructor.
    + by constructor.
Qed.

Section Scan.
Variables end_assistant end_function_call : Z.
Variable prefix_token_ids : list (list Z).
Variable input_token_ids : list Z.

Local Abbreviation is_end := (is_end_of_turn end_assistant end_function_call).
Local Abbreviation span :=
  (unmask_span end_assistant end_function_call input_token_ids).
Local Abbreviation iteration :=
  (scan_iteration end_assistant end_function_call prefix_token_ids
                  input_token_ids).
Local Abbreviation run fuel :=
  (scan end_assistant end_function_call fuel prefix_token_ids input_token_ids).

Local Abbreviation labels_ok := (MaskingProps.labels_ok input_token_ids).

Lemma labels_ok_insert labels i tok :
  labels_ok labels -> input_token_ids !! i = Some tok ->
  labels_ok (<[i := tok]> labels).
Proof.
  intros [Hlen Hval] Htok. split; [by rewrite length_insert|].
  intros j l Hj. destruct (decide (i = j)) as [<-|Hne].
  - rewrite list_lookup_insert_eq in Hj.
    + injection Hj as <-. by right.
    + apply lookup_lt_Some in Htok. lia.
  - rewrite list_lookup_insert_ne in Hj by done. by apply Hval.
Qed.

Lemma unmask_span_ok n : forall i labels,
  labels_ok labels -> labels_ok (span n i labels).1.
Proof.
  induction n as [|n IH]; intros i labels Hok; simpl; [done|].
  destruct (input_token_ids !! i) as [tok|] eqn:Htok; [|done].
  destruct (is_end tok); simpl.
  - by apply labels_ok_insert.
  - apply IH. by apply labels_ok_insert.
Qed.

Lemma scan_ok fuel : forall labels index final,
  labels_ok labels ->
  run fuel (labels, index) = Returned final ->
  labels_ok final.
Proof.
  induction fuel as [|fuel IH]; intros labels index final Hok; [done|].
  cbn [scan]. unfold scan_iteration.
  destruct (index <? length input_token_ids)%nat; [|by intros [= <-]].
  destruct (get_matching_prefix _ _) as [p|]; [|by apply IH].
  pose proof (unmask_span_ok (length input_token_ids - (index + length p))
                (index + length p) labels Hok) as Hok'.
  destruct (span _ _ labels) as [l' [e|]]; simpl in Hok'.
  - by apply IH.
  - by intros [= <-].
Qed.

Lemma initial_labels_ok : labels_ok (initial_labels input_token_ids).
Proof.
  unfold initial_labels. split; [apply length_replicate|].
  intros i l [-> _]%lookup_replicate. by left.
Qed.

(** Where no pattern matches the scan only steps forward. *)
Lemma scan_no_match fuel : forall labels index,
  (forall i, (i < length input_token_ids)%nat ->
             get_matching_prefix prefix_token_ids (drop i input_token_ids)
             = None) ->
  (length input_token_ids - index < fuel)%nat ->
  run fuel (labels, index) = Returned labels.
Proof.
  induction fuel as [|fuel IH]; intros labels index Hnone Hfuel; [lia|].
  cbn [scan]. unfold scan_iteration.
  destruct (index <? length input_token_ids)%nat eqn:Hlt; [|done].
  apply Nat.ltb_lt in Hlt. rewrite (Hnone index Hlt).
  apply IH; [done|lia].
Qed.

(** A span that meets its closing marker at position [e]. *)
Lemma unmask_span_closed n : forall i labels e tok,
  (i <= e < i + n)%nat ->
  length labels = length input_token_ids ->
  input_token_ids !! e = Some tok -> is_end tok = true ->
  (forall j t, (i <= j < e)%nat -> input_token_ids !! j = Some t ->
               is_end t = false) ->
  (span n i labels).2 = Some e
  /\ (forall j, (i <= j <= e)%nat ->
                (span n i labels).1 !! j = input_token_ids !! j)
  /\ (forall j, (j < i \/ e < j)%nat ->
                (span n i labels).1 !! j = labels !! j).
Proof.
  induction n as [|n IH]; intros i labels e tok Hie Hlen He Hend Hbefore;
    [lia|]. simpl.
  pose proof (lookup_lt_Some _ _ _ He) as Helt.
  destruct (input_token_ids !! i) as [t|] eqn:Ht; cycle 1.
  { apply lookup_ge_None in Ht. lia. }
  destruct (decide (i = e)) as [->|Hne].
  - assert (t = tok) as -> by congruence. rewrite Hend. simpl.
    split; [done|]. split.
    + intros j Hj. assert (j = e) as -> by lia.
      rewrite list_lookup_insert_eq by lia. done.
    + intros j Hj. apply list_lookup_insert_ne. lia.
  - rewrite (Hbefore i t ltac:(lia) Ht).
    destruct (IH (S i) (<[i := t]> labels) e tok) as (H1 & H2 & H3);
      [lia | by rewrite length_insert | done | done | |].
    { intros j t' Hj. apply Hbefore. lia. }
    split; [done|]. split.
    + intros j Hj. destruct (decide (j = i)) as [->|Hji].
      * rewrite H3 by lia. rewrite list_lookup_insert_eq by lia. done.
      * apply H2. lia.
    + intros j Hj. rewrite H3 by lia. apply list_lookup_insert_ne. lia.
Qed.

(** With an empty pattern matched on a closing marker the loop keeps its
    index. *)
Lemma scan_stuck fuel : forall labels index tok,
  get_matching_prefix prefix_token_ids (drop index input_token_ids) = Some [] ->
  input_token_ids !! index = Some tok -> is_end tok = true ->
  run fuel (labels, index) = OutOfFuel.
Proof.
  induction fuel as [|fuel IH]; intros labels index tok Hmatch Htok Hend;
    [done|].
  cbn [scan]. unfold scan_iteration.
  pose proof (lookup_lt_Some _ _ _ Htok) as Hlt.
  apply Nat.ltb_lt in Hlt as Hltb. rewrite Hltb, Hmatch.
  cbn [length]. rewrite Nat.add_0_r.
  destruct (length input_token_ids - index)%nat as [|n] eqn:Hn; [lia|].
  cbn [unmask_span]. rewrite Htok, Hend. by eapply IH.
Qed.

Lemma scan_after_running k : forall st st' fuel,
  scan_after end_assistant end_function_call k prefix_token_ids
             input_token_ids st = Some st' ->
  (fuel <= k)%nat -> run fuel st = OutOfFuel.
Proof.
  induction k as [|k IH]; intros st st' fuel Hafter Hfuel.
  { by assert (fuel = O) as -> by lia. }
  destruct fuel as [|fuel]; [done|]. cbn [scan_after scan] in *.
  destruct (iteration st) as [st1|]; [|done].
  eapply IH; [done|lia].
Qed.

End Scan.

(** X2.  Whenever [get_masked_labels] returns, the labels have the length
    of the input, and every label is the ignore value [-100] or the token
    id at its position. *)
Theorem get_masked_labels_shape
    (encode : string -> list Z) (EndToken_values : list string)
    (end_assistant end_function_call : Z) (fuel : nat)
    (input_token_ids labels : list Z) :
  get_masked_labels encode EndToken_values end_assistant end_function_call
                    fuel input_token_ids = Returned labels ->
  length labels = length input_token_ids
  /\ forall i l, labels !! i = Some l ->
                 l = IGNORE \/ input_token_ids !! i = Some l.
Proof.
  unfold get_masked_labels.
  destruct (get_prefix_assistant_token_ids _ _) as [prefixes|]; [|done].
  intros Hrun.
  exact (scan_ok _ _ _ _ fuel _ _ _ (initial_labels_ok _) Hrun).
Qed.

Lemma get_masked_labels_shape_witness :
  length [IGNORE; IGNORE; IGNORE; 11%Z; 12%Z]
  = length MaskingExample.truncated_ids.
Proof.
  apply (get_masked_labels_shape
           MaskingExample.encode MaskingExample.EndToken_values
           MaskingExample.end_assistant MaskingExample.end_function_call 2
           MaskingExample.truncated_ids [IGNORE; IGNORE; IGNORE; 11%Z; 12%Z]).
  reflexivity.
Defined.

(** X3.  When no prefix pattern is empty, [get_masked_labels] returns: the
    scan needs at most one iteration per position and one more to leave
    the loop. *)
Theorem get_masked_labels_returns
    (encode : string -> list Z) (EndToken_values : list string)
    (end_assistant end_function_call : Z)
    (prefix_token_ids : list (list Z)) (input_token_ids : list Z) :
  get_prefix_assistant_token_ids encode EndToken_values
  = Some prefix_token_ids ->
  Forall (fun prefix => prefix <> []) prefix_token_ids ->
  exists labels,
    get_masked_labels encode EndToken_values end_assistant end_function_call
                      (S (length input_token_ids)) input_token_ids
    = Returned labels.
Proof.
  intros Hprefixes Hne. unfold get_masked_labels. rewrite Hprefixes.
  apply scan_returns; [done|lia].
Qed.

Lemma get_masked_labels_returns_witness :
  exists labels,
    get_masked_labels MaskingExample.encode MaskingExample.EndToken_values
      MaskingExample.end_assistant MaskingExample.end_function_call
      6 MaskingExample.truncated_ids = Returned labels.
Proof.
  apply (get_masked_labels_returns
           MaskingExample.encode MaskingExample.EndToken_values
           MaskingExample.end_assistant MaskingExample.end_function_call
           [[32001; 7]; [32002; 7]]%Z MaskingExample.truncated_ids);
    [reflexivity | repeat constructor; discriminate].
Defined.

(** X4.  A sequence in which no prefix pattern matches at any position
    keeps every label at the ignore value. *)
Theorem get_masked_labels_no_match
    (encode : string -> list Z) (EndToken_values : list string)
    (end_assistant end_function_call : Z)
    (prefix_token_ids : list (list Z)) (input_token_ids : list Z) :
  get_prefix_assistant_token_ids encode EndToken_values
  = Some prefix_token_ids ->
  (forall i, (i < length input_token_ids)%nat ->
             get_matching_prefix prefix_token_ids (drop i input_token_ids)
             = None) ->
  get_masked_labels encode EndToken_values end_assistant end_function_call
                    (S (length input_token_ids)) input_token_ids
  = Returned (replicate (length input_token_ids) IGNORE).
Proof.
  intros Hprefixes Hnone. unfold get_masked_labels. rewrite Hprefixes.
  apply scan_no_match; [done|lia].
Qed.

Lemma get_masked_labels_no_match_witness :
  get_masked_labels MaskingExample.encode MaskingExample.EndToken_values
    MaskingExample.end_assistant MaskingExample.end_function_call
    3 [5; 6]%Z
  = Returned [IGNORE; IGNORE].
Proof.
  apply (get_masked_labels_no_match
           MaskingExample.encode MaskingExample.EndToken_values
           MaskingExample.end_assistant MaskingExample.end_function_call
           [[32001; 7]; [32002; 7]]%Z [5; 6]%Z); [reflexivity|].
  intros i Hi. simpl in Hi.
  destruct i as [|[|i]]; [reflexivity | reflexivity | lia].
Defined.

(** X5.  Complete assistant span.  When a pattern [p] matches at [index]
    and the first closing marker after it stands at position [e], the
    iteration copies the tokens from the end of the pattern up to and
    including [e] into the labels, leaves every other label as it was (the
    positions of the pattern included), and resumes the scan at [e]. *)
Theorem scan_iteration_closed_span
    (end_assistant end_function_call : Z) (prefix_token_ids : list (list Z))
    (input_token_ids labels : list Z) (index e : nat) (p : list Z) (tok : Z) :
  (index < length input_token_ids)%nat ->
  length labels = length input_token_ids ->
  get_matching_prefix prefix_token_ids (drop index input_token_ids) = Some p ->
  (index + length p <= e)%nat ->
  input_token_ids !! e = Some tok ->
  is_end_of_turn end_assistant end_function_call tok = true ->
  (forall j t, (index + length p <= j < e)%nat ->
               input_token_ids !! j = Some t ->
               is_end_of_turn end_assistant end_function_call t = false) ->
  exists labels',
    scan_iteration end_assistant end_function_call prefix_token_ids
                   input_token_ids (labels, index) = inl (labels', e)
    /\ (forall j, (index + length p <= j <= e)%nat ->
                  labels' !! j = input_token_ids !! j)
    /\ (forall j, (j < index + length p \/ e < j)%nat ->
                  labels' !! j = labels !! j).
Proof.
  intros Hlt Hlen Hmatch Hstart He Hend Hbefore.
  pose proof (lookup_lt_Some _ _ _ He) as Helt.
  destruct (unmask_span_closed end_assistant end_function_call
              input_token_ids
              (length input_token_ids - (index + length p))
              (index + length p) labels e tok)
    as (H1 & H2 & H3); [lia|done|done|done|done|].
  unfold scan_iteration. apply Nat.ltb_lt in Hlt as ->. rewrite Hmatch.
  destruct (unmask_span _ _ _ _ _ _) as [l' e']. simpl in *. subst e'.
  by exists l'.
Qed.

Lemma scan_iteration_closed_span_witness :
  exists labels',
    scan_iteration MaskingExample.end_assistant
      MaskingExample.end_function_call [[32001; 7]; [32002; 7]]%Z
      MaskingProps.closed_ids (replicate 6 IGNORE, 1%nat)
    = inl (labels', 4%nat)
    /\ labels' !! 4%nat = Some 32002%Z
    /\ labels' !! 5%nat = Some IGNORE.
Proof.
  destruct (scan_iteration_closed_span
              MaskingExample.end_assistant MaskingExample.end_function_call
              [[32001; 7]; [32002; 7]]%Z MaskingProps.closed_ids
              (replicate 6 IGNORE) 1 4 [32001; 7]%Z 32002%Z)
    as (labels' & Hit & Hin & Hout);
    [simpl; lia | reflexivity | reflexivity | simpl; lia | reflexivity
    | reflexivity | |].
  - intros j t Hj. simpl in Hj. assert (j = 3%nat) as -> by lia.
    intros [= <-]. reflexivity.
  - exists labels'. split; [exact Hit|]. split.
    + rewrite Hin by (simpl; lia). reflexivity.
    + rewrite Hout by (simpl; lia). reflexivity.
Defined.

(** X6.  The scan does not return when an empty prefix pattern matches on
    a closing marker: the iteration sets [index = end_index], which is the
    position it started from.  Once the scan reaches such a position,
    [get_masked_labels] yields no result for any amount of fuel. *)
Theorem get_masked_labels_empty_prefix_loops
    (encode : string -> list Z) (EndToken_values : list string)
    (end_assistant end_function_call : Z)
    (prefix_token_ids : list (list Z)) (input_token_ids : list Z)
    (k : nat) (labels : list Z) (index : nat) (tok : Z) :
  get_prefix_assistant_token_ids encode EndToken_values
  = Some prefix_token_ids ->
  scan_after end_assistant end_function_call k prefix_token_ids
             input_token_ids (initial_labels input_token_ids, O)
  = Some (labels, index) ->
  get_matching_prefix prefix_token_ids (drop index input_token_ids)
  = Some [] ->
  input_token_ids !! index = Some tok ->
  is_end_of_turn end_assistant end_function_call tok = true ->
  forall fuel,
    get_masked_labels encode EndToken_values end_assistant end_function_call
                      fuel input_token_ids = OutOfFuel.
Proof.
  intros Hprefixes Hafter Hmatch Htok Hend fuel.
  unfold get_masked_labels. rewrite Hprefixes.
  destruct (le_lt_dec fuel k) as [Hle|Hgt].
  - by eapply scan_after_running.
  - replace fuel with (k + (fuel - k))%nat by lia.
    rewrite (scan_after_scan _ _ _ _ _ _ _ _ Hafter).
    by eapply scan_stuck.
Qed.

Lemma get_masked_labels_empty_prefix_loops_witness :
  get_masked_labels MaskingProps.artifact_encode
    MaskingExample.EndToken_values MaskingExample.end_assistant
    MaskingExample.end_function_call 1000 [32002]%Z = OutOfFuel.
Proof.
  apply (get_masked_labels_empty_prefix_loops
           MaskingProps.artifact_encode MaskingExample.EndToken_values
           MaskingExample.end_assistant MaskingExample.end_function_call
           [[]; []] [32002]%Z 0 [IGNORE] 0 32002%Z);
    reflexivity.
Defined.

End MaskingExtra.

(* ------------------------------------------------------------------ *)
(** *** Batch boundaries *)

Module BatchesExtra.
Import Batches.

Lemma batches_from (size batch_size : Z) :
  (0 <= size)%Z -> (0 < batch_size)%Z ->
  forall (n i0 : nat),
    (Z.of_nat i0 + Z.of_nat n = size / batch_size)%Z ->
    contiguous (Z.of_nat i0 * batch_size)
               (flat_map (batch_at size batch_size)
                         (map Z.of_nat (seq i0 (S n))))
               size
    /\ Forall (fun b => (0 <= b.1 < b.2)%Z /\ (b.2 <= b.1 + batch_size)%Z
                        /\ (b.2 <= size)%Z)
              (flat_map (batch_at size batch_size)
                        (map Z.of_nat (seq i0 (S n)))).
Proof.
  intros Hsize Hb.
  pose proof (Z.mul_div_le size batch_size Hb) as Hlow.
  pose proof (Z.mul_succ_div_gt size batch_size Hb) as Hhigh.
  induction n as [|n IH]; intros i0 Hq.
  - cbn [seq map flat_map]. rewrite app_nil_r. unfold batch_at.
    assert (Z.of_nat i0 = size / batch_size)%Z as -> by lia.
    cbv zeta.
    assert ((size <? size / batch_size * batch_size + batch_size)%Z = true)
      as -> by (apply Z.ltb_lt; lia).
    destruct (size / batch_size * batch_size <? size)%Z eqn:H2.
    + apply Z.ltb_lt in H2. simpl. split; [done|].
      repeat constructor; simpl; nia.
    + apply Z.ltb_ge in H2. simpl. split; [nia|constructor].
  - destruct (IH (S i0) ltac:(lia)) as [Hc Hf].
    change (flat_map (batch_at size batch_size)
                     (map Z.of_nat (seq i0 (S (S n)))))
      with (batch_at size batch_size (Z.of_nat i0)
            ++ flat_map (batch_at size batch_size)
                        (map Z.of_nat (seq (S i0) (S n)))).
    assert (batch_at size batch_size (Z.of_nat i0)
            = [((Z.of_nat i0 * batch_size)%Z,
                (Z.of_nat i0 * batch_size + batch_size)%Z)]) as ->.
    { unfold batch_at.
      assert ((Z.of_nat i0 + 1) * batch_size <= size)%Z as Hfits.
      { assert ((Z.of_nat i0 + 1) * batch_size
                <= size / batch_size * batch_size)%Z
          by (apply Z.mul_le_mono_nonneg_r; lia).
        lia. }
      cbv zeta.
      assert ((size <? Z.of_nat i0 * batch_size + batch_size)%Z = false)
        as -> by (apply Z.ltb_ge; lia).
      assert ((Z.of_nat i0 * batch_size
               <? Z.of_nat i0 * batch_size + batch_size)%Z = true)
        as -> by (apply Z.ltb_lt; lia).
      done. }
    assert ((Z.of_nat i0 + 1) * batch_size <= size)%Z as Hfits.
    { assert ((Z.of_nat i0 + 1) * batch_size
              <= size / batch_size * batch_size)%Z
        by (apply Z.mul_le_mono_nonneg_r; lia).
      lia. }
    cbn [app]. split.
    + simpl. split; [done|].
      replace (Z.of_nat i0 * batch_size + batch_size)%Z
        with (Z.of_nat (S i0) * batch_size)%Z by lia.
      exact Hc.
    + constructor; [simpl; nia | exact Hf].
Qed.

Lemma contiguous_slices {A : Type} (data : list A) (bounds : list (Z * Z)) :
  forall from,
    (0 <= from)%Z ->
    Forall (fun b => (0 <= b.1 < b.2)%Z) bounds ->
    contiguous from bounds (Z.of_nat (length data)) ->
    concat (map (slice data) bounds) = drop (Z.to_nat from) data.
Proof.
  induction bounds as [|[s e] bounds IH]; intros from Hfrom Hall Hc; simpl in *.
  - subst from. rewrite Nat2Z.id. by rewrite drop_all.
  - destruct Hc as [-> Hc]. apply Forall_cons in Hall as [Hse Hall].
    simpl in Hse. rewrite (IH e); [|lia|done|done].
    unfold slice. simpl.
    replace (Z.to_nat e) with (Z.to_nat from + Z.to_nat (e - from))%nat by lia.
    rewrite <- drop_drop. apply take_drop.
Qed.

(** X7.  For a positive batch size, the pairs returned by
    [get_batch_indices(len(data), batch_size)] cut the data into
    consecutive slices: each slice is non-empty and at most [batch_size]
    long, and the slices, in order, concatenate to the data. *)
Theorem get_batch_indices_covers {A : Type} (data : list A) (batch_size : Z) :
  (0 < batch_size)%Z ->
  exists bounds,
    get_batch_indices (Z.of_nat (length data)) batch_size = Some bounds
    /\ concat (map (slice data) bounds) = data
    /\ Forall (fun b => (0 <= b.1 < b.2)%Z
                        /\ (b.2 - b.1 <= batch_size)%Z
                        /\ (b.2 <= Z.of_nat (length data))%Z) bounds.
Proof.
  intros Hb. unfold get_batch_indices.
  assert ((batch_size =? 0)%Z = false) as -> by (apply Z.eqb_neq; lia).
  eexists. split; [done|]. unfold range.
  pose proof (Z.div_pos (Z.of_nat (length data)) batch_size ltac:(lia) Hb).
  replace (Z.to_nat (Z.of_nat (length data) / batch_size + 1))
    with (S (Z.to_nat (Z.of_nat (length data) / batch_size))) by lia.
  destruct (batches_from (Z.of_nat (length data)) batch_size ltac:(lia) Hb
              (Z.to_nat (Z.of_nat (length data) / batch_size)) O ltac:(lia))
    as [Hc Hf].
  split.
  - rewrite (contiguous_slices data _ 0%Z); [done|lia| |exact Hc].
    eapply Forall_impl; [exact Hf|]. by intros b (? & _).
  - eapply Forall_impl; [exact Hf|]. intros b (? & ? & ?). lia.
Qed.

Lemma get_batch_indices_covers_witness :
  exists bounds,
    get_batch_indices 5%Z 2%Z = Some bounds
    /\ concat (map (slice [10; 11; 12; 13; 14]%Z) bounds)
       = [10; 11; 12; 13; 14]%Z.
Proof.
  destruct (get_batch_indices_covers [10; 11; 12; 13; 14]%Z 2%Z ltac:(lia))
    as (bounds & Hb & Hc & _).
  by exists bounds.
Defined.

End BatchesExtra.

(* ------------------------------------------------------------------ *)
(** *** Packing: order, fullness, empty groups, validity of labels *)

Module PackingExtra.
Import Packing PackingFacts PackingProps.

Lemma greedy_groups_concat capacity suf : forall a sum group,
  concat (greedy_groups capacity a suf sum group)
  = group ++ seq a (length suf).
Proof.
  induction suf as [|l suf IH]; intros a sum group; simpl.
  { destruct group; simpl; by rewrite ?app_nil_r. }
  destruct (sum + l <=? capacity)%Z; simpl.
  - rewrite IH. by rewrite <- app_assoc.
  - by rewrite IH.
Qed.

(** X8.  The groups keep the input order and hold every index exactly
    once: concatenated, they are [0, 1, ..., n-1]. *)
Theorem merge_data_points_by_length_order (lengths : list Z) (max_length : Z) :
  concat (merge_data_points_by_length lengths max_length)
  = seq O (length lengths).
Proof.
  rewrite merge_data_points_by_length_greedy. unfold greedy_pack.
  by rewrite greedy_groups_concat.
Qed.

Lemma greedy_groups_head capacity suf : forall a sum group,
  group <> [] ->
  exists more rest,
    greedy_groups capacity a suf sum group = (group ++ more) :: rest.
Proof.
  induction suf as [|l suf IH]; intros a sum group Hne; simpl.
  { destruct group; [done|]. exists [], []. by rewrite app_nil_r. }
  destruct (sum + l <=? capacity)%Z.
  - destruct (IH (S a) (sum + l)%Z (group ++ [a])) as (more & rest & ->).
    { by destruct group. }
    exists (a :: more), rest. by rewrite <- app_assoc.
  - exists [], (greedy_groups capacity (S a) suf l [a]). by rewrite app_nil_r.
Qed.

Lemma greedy_groups_closed_when_full capacity lengths suf : forall a sum group,
  (forall j l, suf !! j = Some l -> lengths !! (a + j)%nat = Some l) ->
  group_length lengths group = sum ->
  closed_when_full lengths capacity (greedy_groups capacity a suf sum group).
Proof.
  induction suf as [|l suf IH]; intros a sum group Hsuf Hsum; simpl.
  { by destruct group. }
  pose proof (Hsuf O l eq_refl) as Ha. rewrite Nat.add_0_r in Ha.
  assert (forall j l0, suf !! j = Some l0 ->
            lengths !! (S a + j)%nat = Some l0) as Hsuf'.
  { intros j l0 Hj. specialize (Hsuf (S j) l0 Hj).
    by replace (S a + j)%nat with (a + S j)%nat by lia. }
  destruct (sum + l <=? capacity)%Z eqn:Hadd.
  - apply IH; [done|]. rewrite group_length_snoc, Ha. simpl. lia.
  - apply Z.leb_gt in Hadd.
    assert (group_length lengths [a] = l) as Hone.
    { unfold group_length. simpl. rewrite Ha. simpl. lia. }
    pose proof (IH (S a) l [a] Hsuf' Hone) as Hrest.
    destruct (greedy_groups_head capacity suf (S a) l [a] ltac:(done))
      as (more & rest & Heq).
    rewrite Heq in Hrest |- *. cbn [closed_when_full]. split; [|exact Hrest].
    exists a, more. split; [done|]. rewrite Ha. simpl. lia.
Qed.

(** X9.  The packer closes a group only when it must: for every two
    neighbouring groups, the total length of the first plus the length of
    the first member of the second exceeds the capacity. *)
Theorem merge_data_points_by_length_closed_when_full
    (lengths : list Z) (max_length : Z) :
  closed_when_full lengths max_length
                   (merge_data_points_by_length lengths max_length).
Proof.
  rewrite merge_data_points_by_length_greedy. unfold greedy_pack.
  by apply greedy_groups_closed_when_full.
Qed.

Lemma greedy_groups_nonempty capacity suf : forall a sum group,
  Forall (fun l => (l <= capacity)%Z) suf ->
  group <> [] \/ sum = 0%Z ->
  Forall (fun g => g <> []) (greedy_groups capacity a suf sum group).
Proof.
  induction suf as [|l suf IH]; intros a sum group Hfit Hinv; simpl.
  { destruct group; repeat constructor. done. }
  apply Forall_cons in Hfit as [Hl Hfit].
  destruct (sum + l <=? capacity)%Z eqn:Hadd.
  - apply IH; [done|]. left. by destruct group.
  - apply Z.leb_gt in Hadd. constructor.
    + destruct Hinv as [? | ->]; [done|lia].
    + apply IH; [done|]. by left.
Qed.

(** X10.  When no single length exceeds the capacity, the packer returns
    no empty group. *)
Theorem merge_data_points_by_length_no_empty_group
    (lengths : list Z) (max_length : Z) :
  Forall (fun l => (l <= max_length)%Z) lengths ->
  Forall (fun g => g <> []) (merge_data_points_by_length lengths max_length).
Proof.
  intros Hfit. rewrite merge_data_points_by_length_greedy. unfold greedy_pack.
  apply greedy_groups_nonempty; [done|by right].
Qed.

Lemma merge_data_points_by_length_no_empty_group_witness :
  Forall (fun g => g <> [])
         (merge_data_points_by_length [5; 5; 5; 7]%Z 10%Z).
Proof.
  apply (merge_data_points_by_length_no_empty_group [5; 5; 5; 7]%Z 10%Z).
  repeat constructor; lia.
Defined.

Lemma total_nonneg (ls : list Z) :
  Forall (fun l => (0 <= l)%Z) ls -> (0 <= foldr Z.add 0 ls)%Z.
Proof. induction 1; simpl; lia. Qed.

Lemma greedy_groups_all_fit capacity suf : forall a sum group,
  Forall (fun l => (0 <= l)%Z) suf ->
  (sum + foldr Z.add 0 suf <= capacity)%Z ->
  greedy_groups capacity a suf sum group
  = match group ++ seq a (length suf) with
    | [] => []
    | g => [g]
    end.
Proof.
  induction suf as [|l suf IH]; intros a sum group Hpos Htotal; simpl.
  { rewrite app_nil_r. by destruct group. }
  apply Forall_cons in Hpos as [Hl Hpos].
  pose proof (total_nonneg suf Hpos). simpl in Htotal.
  assert ((sum + l <=? capacity)%Z = true) as -> by (apply Z.leb_le; lia).
  rewrite IH; [|done|lia]. by rewrite <- app_assoc.
Qed.

(** X11.  When the lengths are not negative and their sum is within the
    capacity, a non-empty input is packed into the one group of all its
    indices. *)
Theorem merge_data_points_by_length_single_group
    (lengths : list Z) (max_length : Z) :
  lengths <> [] ->
  Forall (fun l => (0 <= l)%Z) lengths ->
  (foldr Z.add 0 lengths <= max_length)%Z ->
  merge_data_points_by_length lengths max_length = [seq O (length lengths)].
Proof.
  intros Hne Hpos Htotal.
  rewrite merge_data_points_by_length_greedy. unfold greedy_pack.
  rewrite greedy_groups_all_fit; [|done|lia]. by destruct lengths.
Qed.

Lemma merge_data_points_by_length_single_group_witness :
  merge_data_points_by_length [3; 0; 4]%Z 7%Z = [[0; 1; 2]%nat].
Proof.
  apply (merge_data_points_by_length_single_group [3; 0; 4]%Z 7%Z);
    [done | repeat constructor; lia | simpl; lia].
Defined.

End PackingExtra.

(* ------------------------------------------------------------------ *)
(** *** Attention mask: shape and overflow *)

Module AttentionMaskExtra.
Import AttentionMask AttentionMaskFacts.

Section Values.
Context {V : Type}.
Variables zero m_value : V.

Lemma mat_imap_shape (f : nat -> nat -> V -> V) (M : list (list V)) n :
  length M = n /\ Forall (fun row => length row = n) M ->
  length (mat_imap f M) = n
  /\ Forall (fun row => length row = n) (mat_imap f M).
Proof.
  intros [Hlen Hrows]. unfold mat_imap. split; [by rewrite length_imap|].
  apply Forall_lookup. intros i row Hi.
  rewrite list_lookup_imap in Hi.
  destruct (M !! i) as [row0|] eqn:Hrow0; [|done].
  injection Hi as <-. rewrite length_imap.
  rewrite Forall_lookup in Hrows. by eapply Hrows.
Qed.

Lemma assign_block_shape (result : list (list V)) a l x result' n :
  assign_block result a l x = Some result' ->
  length result = n /\ Forall (fun row => length row = n) result ->
  length result' = n /\ Forall (fun row => length row = n) result'.
Proof.
  unfold assign_block. destruct (_ || _); [|done].
  intros [= <-]. apply mat_imap_shape.
Qed.

Lemma place_blocks_shape lengths : forall acc (result result' : list (list V)) n,
  place_blocks zero lengths m_value acc result = Some result' ->
  length result = n /\ Forall (fun row => length row = n) result ->
  length result' = n /\ Forall (fun row => length row = n) result'.
Proof.
  induction lengths as [|l lengths IH]; intros acc result result' n; simpl.
  { by intros [= <-]. }
  destruct (assign_block _ _ _ _) as [r1|] eqn:Hblock; [|done].
  intros Hrest Hshape. eapply IH; [exact Hrest|].
  by eapply assign_block_shape.
Qed.

Lemma create_mask_shape lengths max_length (M : list (list V)) :
  create_mask_from_lengths zero lengths max_length m_value = Some M ->
  length M = max_length /\ Forall (fun row => length row = max_length) M.
Proof.
  unfold create_mask_from_lengths.
  destruct (place_blocks _ _ _ _ _) as [result|] eqn:Hplace; [|done].
  assert (length result = max_length
          /\ Forall (fun row => length row = max_length) result) as Hshape.
  { eapply place_blocks_shape; [exact Hplace|].
    unfold full. split; [apply length_replicate|].
    apply Forall_replicate. apply length_replicate. }
  destruct (0 <? _)%Z; intros [= <-]; [|done].
  unfold fill_cols_from, fill_rows_from. by do 2 apply mat_imap_shape.
Qed.

(** A block of two or more rows that passes the end of the tensor makes
    the slice assignment raise. *)
Lemma place_blocks_overflow lengths : forall acc (result : list (list V)),
  Forall (fun l => (2 <= l)%nat) lengths ->
  Forall (fun row => length row = length result) result ->
  (acc <= length result < acc + sum_list lengths)%nat ->
  place_blocks zero lengths m_value acc result = None.
Proof.
  induction lengths as [|l lengths IH]; intros acc result Hbig Hrows Hover;
    simpl in *; [lia|].
  apply Forall_cons in Hbig as [Hl Hbig].
  unfold assign_block.
  destruct (decide (acc + l <= length result)%nat) as [Hfit|Hnofit].
  - replace (Nat.min (acc + l) (length result)
             - Nat.min acc (length result))%nat with l by lia.
    rewrite Nat.eqb_refl. simpl.
    apply IH; [done| |].
    + destruct (mat_imap_shape
                  (fun i j old =>
                     if (acc <=? i)%nat && (i <? acc + l)%nat
                        && (acc <=? j)%nat && (j <? acc + l)%nat
                     then default old
                            (entry (get_causal_mask zero l m_value)
                                   (i - acc) (j - acc))
                     else old)
                  result (length result)) as [Hlen Hrows']; [done|].
      by rewrite Hlen.
    + unfold mat_imap. rewrite length_imap. lia.
  - assert ((Nat.min (acc + l) (length result)
             - Nat.min acc (length result) =? l)%nat = false) as ->.
    { apply Nat.eqb_neq. lia. }
    assert ((l =? 1)%nat = false) as -> by (apply Nat.eqb_neq; lia).
    done.
Qed.

End Values.

(** X12.  Whenever [create_mask_from_lengths] returns, the mask is square
    of side [model_max_length]: that many rows, each with that many
    entries. *)
Theorem create_mask_from_lengths_shape {V : Type} (zero m_value : V)
    (lengths : list nat) (max_length : nat) (M : list (list V)) :
  create_mask_from_lengths zero lengths max_length m_value = Some M ->
  length M = max_length /\ Forall (fun row => length row = max_length) M.
Proof. apply create_mask_shape. Qed.

Lemma create_mask_from_lengths_shape_witness :
  length [[0; -1]; [0; -1]]%Z = 2%nat
  /\ Forall (fun row => length row = 2%nat) [[0; -1]; [0; -1]]%Z.
Proof.
  apply (create_mask_from_lengths_shape 0%Z (-1)%Z [1]%nat 2%nat).
  reflexivity.
Defined.

(** X13.  Segments of two or more tokens each whose total exceeds
    [model_max_length] make [create_mask_from_lengths] raise: the block of
    the first segment that passes the end cannot be assigned. *)
Theorem create_mask_from_lengths_overflow {V : Type} (zero m_value : V)
    (lengths : list nat) (max_length : nat) :
  Forall (fun l => (2 <= l)%nat) lengths ->
  (max_length < sum_list lengths)%nat ->
  create_mask_from_lengths zero lengths max_length m_value = None.
Proof.
  intros Hbig Hover. unfold create_mask_from_lengths.
  rewrite place_blocks_overflow; [done|done| |].
  - unfold full. rewrite length_replicate.
    apply Forall_replicate. apply length_replicate.
  - unfold full. rewrite length_replicate. simpl. lia.
Qed.

Lemma create_mask_from_lengths_overflow_witness :
  create_mask_from_lengths 0%Z [2; 4]%nat 5%nat (-1)%Z = None.
Proof.
  apply (create_mask_from_lengths_overflow 0%Z (-1)%Z [2; 4]%nat 5%nat);
    [repeat constructor | simpl; lia].
Defined.

End AttentionMaskExtra.

(* ------------------------------------------------------------------ *)
(** *** Packed items: shape, padding, forced first labels, overflow *)

Module MergeExtra.
Import Merge MergeProps.

Lemma concat_members_mergeable (data_points : list data_point) :
  Forall mergeable data_points ->
  concat_members data_points
  = Some (concat (map input_ids data_points),
          concat (map relabel data_points),
          map (fun item => length (input_ids item)) data_points).
Proof.
  induction 1 as [|item rest [Hne _] _ IH]; [done|].
  cbn [concat_members]. rewrite IH.
  destruct (labels item) as [|l0 tl] eqn:Hl; [done|].
  cbn [map concat]. unfold relabel. rewrite Hl. done.
Qed.

Lemma concat_members_lengths (data_points : list data_point) ids label_ids lengths :
  concat_members data_points = Some (ids, label_ids, lengths) ->
  length ids = sum_list lengths
  /\ lengths = map (fun item => length (input_ids item)) data_points.
Proof.
  revert ids label_ids lengths.
  induction data_points as [|item rest IH]; intros ids label_ids lengths.
  { by intros [= <- <- <-]. }
  cbn [concat_members]. destruct (labels item) as [|l0 tl]; [done|].
  destruct (concat_members rest) as [[[ids0 labs0] lens0]|]; [|done].
  intros [= <- <- <-]. destruct (IH _ _ _ eq_refl) as [Hlen ->].
  split; [|done]. rewrite length_app, Hlen. done.
Qed.

Lemma length_concat_ids (data_points : list data_point) :
  length (concat (map input_ids data_points)) = total_length data_points.
Proof.
  unfold total_length. induction data_points as [|item rest IH]; [done|].
  simpl. rewrite length_app, IH. done.
Qed.

Lemma length_concat_relabel (data_points : list data_point) :
  Forall mergeable data_points ->
  length (concat (map relabel data_points)) = total_length data_points.
Proof.
  unfold total_length.
  induction 1 as [|item rest [Hne Hlen] _ IH]; [done|].
  cbn [map concat]. rewrite length_app, IH. unfold relabel.
  destruct (labels item) as [|l0 tl]; [done|]. simpl in *. lia.
Qed.

Section Values.
Context {V : Type}.
Variables zero neg_inf : V.

(** What [merge_data_points] returns for a group that fits. *)
Lemma merge_data_points_fits (data_points : list data_point) (tok : tokenizer) :
  Forall mergeable data_points ->
  (total_length data_points <= model_max_length tok)%nat ->
  exists M,
    AttentionMask.create_mask_from_lengths
      zero (map (fun item => length (input_ids item)) data_points)
      (model_max_length tok) neg_inf = Some M
    /\ merge_data_points zero neg_inf data_points tok
       = Some
           (let pad := (model_max_length tok - total_length data_points)%nat in
            let ids := concat (map input_ids data_points) in
            let label_ids := concat (map relabel data_points) in
            if String.eqb (padding_side tok) "right"
            then PackedItem (ids ++ replicate pad (pad_token_id tok))
                            (label_ids ++ replicate pad Masking.IGNORE) [M]
            else PackedItem (replicate pad (pad_token_id tok) ++ ids)
                            (replicate pad Masking.IGNORE ++ label_ids) [M]).
Proof.
  intros Hok Hfit.
  destruct (AttentionMaskFacts.create_mask_from_lengths_entries
              zero neg_inf
              (map (fun item => length (input_ids item)) data_points)
              (model_max_length tok) Hfit) as (M & HM & _).
  exists M. split; [exact HM|].
  pose proof (AttentionMaskExtra.create_mask_shape _ _ _ _ _ HM) as [HlenM _].
  unfold merge_data_points.
  rewrite (concat_members_mergeable _ Hok), HM.
  rewrite length_concat_ids.
  replace (Z.to_nat (Z.of_nat (model_max_length tok)
                     - Z.of_nat (total_length data_points)))
    with (model_max_length tok - total_length data_points)%nat by lia.
  cbv zeta.
  destruct (String.eqb (padding_side tok) "right").
  - rewrite !length_app, !length_replicate, length_concat_ids,
      (length_concat_relabel _ Hok), HlenM.
    assert ((total_length data_points
             + (model_max_length tok - total_length data_points)
             =? model_max_length tok)%nat = true) as Heq
      by (apply Nat.eqb_eq; lia).
    by rewrite Nat.eqb_refl, Heq.
  - rewrite !length_app, !length_replicate, length_concat_ids,
      (length_concat_relabel _ Hok), HlenM.
    assert ((model_max_length tok - total_length data_points
             + total_length data_points
             =? model_max_length tok)%nat = true) as Heq
      by (apply Nat.eqb_eq; lia).
    by rewrite Nat.eqb_refl, Heq.
Qed.

Lemma concat_relabel_offset (data_points : list data_point) : forall k,
  Forall mergeable data_points ->
  (k < length data_points)%nat ->
  concat (map relabel data_points)
    !! AttentionMask.offset
         (map (fun item => length (input_ids item)) data_points) k
  = Some Masking.IGNORE.
Proof.
  induction data_points as [|item rest IH]; intros k Hok Hk; [simpl in Hk; lia|].
  apply Forall_cons in Hok as [[Hne Hlen] Hok].
  destruct k as [|k]; [done|].
  unfold AttentionMask.offset in *. cbn [map take concat].
  change (sum_list (length (input_ids item)
                    :: take k (map (fun item0 => length (input_ids item0)) rest)))
    with (length (input_ids item)
          + sum_list (take k (map (fun item0 => length (input_ids item0)) rest)))%nat.
  assert (length (relabel item) = length (input_ids item)) as Hrel.
  { unfold relabel. destruct (labels item); [done|]. simpl in *. lia. }
  rewrite lookup_app_r by lia. rewrite Hrel.
  replace (length (input_ids item) +
           sum_list (take k (map (fun item0 => length (input_ids item0)) rest))
           - length (input_ids item))%nat
    with (sum_list (take k (map (fun item0 => length (input_ids item0)) rest)))
    by lia.
  apply IH; [done|]. simpl in Hk. lia.
Qed.

End Values.

(** X14.  A group whose members each carry one label per token (and at
    least one) and whose token total is within [model_max_length] is merged
    without error, on either padding side, into ids and labels of exactly
    [model_max_length] entries and one square mask of that side. *)
Theorem merge_data_points_shape {V : Type} (zero neg_inf : V)
    (data_points : list data_point) (tok : tokenizer) :
  Forall mergeable data_points ->
  (total_length data_points <= model_max_length tok)%nat ->
  exists item M,
    merge_data_points zero neg_inf data_points tok = Some item
    /\ length (packed_input_ids item) = model_max_length tok
    /\ length (packed_labels item) = model_max_length tok
    /\ packed_attention_mask item = [M]
    /\ length M = model_max_length tok
    /\ Forall (fun row => length row = model_max_length tok) M.
Proof.
  intros Hok Hfit.
  destruct (merge_data_points_fits zero neg_inf data_points tok Hok Hfit)
    as (M & HM & ->).
  pose proof (AttentionMaskExtra.create_mask_shape _ _ _ _ _ HM) as [HlenM Hrows].
  cbv zeta. eexists _, M. split; [done|].
  destruct (String.eqb (padding_side tok) "right"); cbn;
    rewrite !length_app, !length_replicate, length_concat_ids,
      (length_concat_relabel _ Hok);
    repeat split; done || lia.
Qed.

Lemma merge_data_points_shape_witness :
  exists item M,
    merge_data_points 0%Z (-1)%Z two_points wide_tokenizer = Some item
    /\ length (packed_input_ids item) = 5%nat
    /\ length (packed_labels item) = 5%nat
    /\ packed_attention_mask item = [M]
    /\ length M = 5%nat
    /\ Forall (fun row => length row = 5%nat) M.
Proof.
  apply (merge_data_points_shape 0%Z (-1)%Z two_points wide_tokenizer).
  - repeat constructor; done.
  - vm_compute. lia.
Defined.

(** X15.  With right padding the packed item and its mask agree on where
    the padding is: every position from the token total on holds the pad
    token and the ignore label, and its mask column is forbidden in every
    row; the positions before it hold the concatenated ids. *)
Theorem merge_data_points_right_padding {V : Type} (zero neg_inf : V)
    (data_points : list data_point) (tok : tokenizer) :
  padding_side tok = "right"%string ->
  Forall mergeable data_points ->
  (total_length data_points <= model_max_length tok)%nat ->
  exists item M,
    merge_data_points zero neg_inf data_points tok = Some item
    /\ packed_attention_mask item = [M]
    /\ (forall c, (total_length data_points <= c < model_max_length tok)%nat ->
          packed_input_ids item !! c = Some (pad_token_id tok)
          /\ packed_labels item !! c = Some Masking.IGNORE
          /\ forall r, (r < model_max_length tok)%nat ->
                       AttentionMask.entry M r c = Some neg_inf)
    /\ (forall c, (c < total_length data_points)%nat ->
          packed_input_ids item !! c
          = concat (map input_ids data_points) !! c).
Proof.
  intros Hside Hok Hfit.
  destruct (merge_data_points_fits zero neg_inf data_points tok Hok Hfit)
    as (M & HM & ->).
  destruct (AttentionMaskFacts.create_mask_from_lengths_entries
              zero neg_inf
              (map (fun item => length (input_ids item)) data_points)
              (model_max_length tok) Hfit) as (M' & HM' & Hentries).
  assert (M' = M) as -> by congruence.
  cbv zeta. rewrite Hside. cbn [String.eqb Ascii.eqb Bool.eqb].
  eexists _, M. split; [done|]. split; [done|]. cbn. split.
  - intros c Hc. split; [|split].
    + rewrite lookup_app_r by (rewrite length_concat_ids; lia).
      apply lookup_replicate_2. rewrite length_concat_ids. lia.
    + rewrite lookup_app_r by (rewrite (length_concat_relabel _ Hok); lia).
      apply lookup_replicate_2. rewrite (length_concat_relabel _ Hok). lia.
    + intros r Hr. rewrite Hentries by lia.
      fold (total_length data_points).
      assert ((total_length data_points <=? c)%nat = true) as ->; [|done].
      apply Nat.leb_le. lia.
  - intros c Hc. apply lookup_app_l. rewrite length_concat_ids. lia.
Qed.

Lemma merge_data_points_right_padding_witness :
  exists item M,
    merge_data_points 0%Z (-1)%Z two_points wide_tokenizer = Some item
    /\ packed_attention_mask item = [M]
    /\ packed_input_ids item !! 4%nat = Some 0%Z
    /\ AttentionMask.entry M 0 4 = Some (-1)%Z.
Proof.
  destruct (merge_data_points_right_padding
              0%Z (-1)%Z two_points wide_tokenizer eq_refl)
    as (item & M & Hitem & Hmask & Hpad & _).
  - repeat constructor; done.
  - vm_compute. lia.
  - exists item, M. split; [exact Hitem|]. split; [exact Hmask|].
    destruct (Hpad 4%nat) as (Hid & _ & Hcol); [vm_compute; lia|].
    split; [exact Hid|]. apply Hcol. simpl. lia.
Defined.

(** X16.  In a packed item the label at the first position of every
    member is the ignore value, whatever label the member had there. *)
Theorem merge_data_points_first_labels {V : Type} (zero neg_inf : V)
    (data_points : list data_point) (tok : tokenizer) :
  Forall mergeable data_points ->
  (total_length data_points <= model_max_length tok)%nat ->
  exists item,
    merge_data_points zero neg_inf data_points tok = Some item
    /\ forall k, (k < length data_points)%nat ->
         packed_labels item
           !! (front_pad tok data_points
               + AttentionMask.offset
                   (map (fun d => length (input_ids d)) data_points) k)%nat
         = Some Masking.IGNORE.
Proof.
  intros Hok Hfit.
  destruct (merge_data_points_fits zero neg_inf data_points tok Hok Hfit)
    as (M & HM & ->).
  cbv zeta. eexists. split; [done|]. intros k Hk.
  pose proof (concat_relabel_offset data_points k Hok Hk) as Hfirst.
  pose proof (lookup_lt_Some _ _ _ Hfirst) as Hlt.
  unfold front_pad.
  destruct (String.eqb (padding_side tok) "right"); cbn.
  - rewrite lookup_app_l by done. exact Hfirst.
  - rewrite lookup_app_r by (rewrite length_replicate; lia).
    rewrite length_replicate.
    match goal with
    | |- _ !! ?i = _ =>
        replace i with
          (AttentionMask.offset
             (map (fun d => length (input_ids d)) data_points) k) by lia
    end.
    exact Hfirst.
Qed.

Lemma merge_data_points_first_labels_witness :
  exists item,
    merge_data_points 0%Z (-1)%Z two_points wide_tokenizer = Some item
    /\ packed_labels item !! 2%nat = Some Masking.IGNORE.
Proof.
  destruct (merge_data_points_first_labels
              0%Z (-1)%Z two_points wide_tokenizer)
    as (item & Hitem & Hfirst).
  - repeat constructor; done.
  - vm_compute. lia.
  - exists item. split; [exact Hitem|].
    apply (Hfirst 1%nat). simpl. lia.
Defined.

(** X17.  A group whose token total exceeds [model_max_length] is never
    merged: the mask cannot be built, or the final length assertion
    fails. *)
Theorem merge_data_points_overflow {V : Type} (zero neg_inf : V)
    (data_points : list data_point) (tok : tokenizer) :
  (model_max_length tok < total_length data_points)%nat ->
  merge_data_points zero neg_inf data_points tok = None.
Proof.
  intros Hover. unfold merge_data_points.
  destruct (concat_members data_points) as [[[ids label_ids] lengths]|] eqn:Hc;
    [|done].
  destruct (concat_members_lengths _ _ _ _ Hc) as [Hids _].
  assert (length ids = total_length data_points) as Htotal.
  { destruct (concat_members_lengths _ _ _ _ Hc) as [-> ->]. done. }
  destruct (AttentionMask.create_mask_from_lengths _ _ _ _) as [M|] eqn:HM;
    [|done].
  pose proof (AttentionMaskExtra.create_mask_shape _ _ _ _ _ HM) as [HlenM _].
  replace (Z.to_nat (Z.of_nat (model_max_length tok) - Z.of_nat (length ids)))
    with O by lia.
  cbn [replicate]. rewrite !app_nil_r. cbn [app].
  destruct (String.eqb (padding_side tok) "right");
    (destruct (length ids =? length label_ids)%nat eqn:H1; [|done]);
    (destruct (length label_ids =? length M)%nat eqn:H2; [|done]);
    apply Nat.eqb_eq in H1, H2; lia.
Qed.

Lemma merge_data_points_overflow_witness :
  merge_data_points 0%Z (-1)%Z two_points (Tokenizer 2 "right" 0%Z) = None.
Proof.
  apply (merge_data_points_overflow 0%Z (-1)%Z two_points
           (Tokenizer 2 "right" 0%Z)).
  vm_compute. lia.
Defined.

End MergeExtra.

(* ------------------------------------------------------------------ *)
(** *** Packed data set: validity of labels, items, cache round trip *)

Module DatasetExtra.
Import Merge Cache Dataset MergeProps.

Lemma is_valid_labels_list_spec (labels : list Z) :
  is_valid_labels_list labels = true
  <-> Exists (fun label => label <> Masking.IGNORE) labels.
Proof.
  unfold is_valid_labels_list.
  induction labels as [|l ls IH].
  { split; [done|]. by intros H%Exists_nil. }
  rewrite filter_cons. rewrite Exists_cons.
  destruct (decide (l <> Masking.IGNORE)) as [Hne|Heq].
  - split; [by left | done].
  - rewrite IH. split; [by right|]. by intros [?|?].
Qed.

Lemma wrap_int64_small (z : Z) :
  (- 2 ^ 63 <= z < 2 ^ 63)%Z -> wrap_int64 z = z.
Proof. intros Hz. unfold wrap_int64. rewrite Z.mod_small; lia. Qed.

Lemma shifted_sum_cons (label : Z) (labels : list Z) :
  shifted_sum (label :: labels) = (label + 100 + shifted_sum labels)%Z.
Proof. done. Qed.

Lemma shifted_sum_nonneg (labels : list Z) :
  Forall (fun label => (-100 <= label)%Z) labels ->
  (0 <= shifted_sum labels)%Z.
Proof.
  induction 1 as [|l ls Hl _ IH]; [done|]. rewrite shifted_sum_cons. lia.
Qed.

Lemma shifted_sum_positive (labels : list Z) :
  Forall (fun label => (-100 <= label)%Z) labels ->
  (shifted_sum labels <> 0)%Z
  <-> Exists (fun label => label <> Masking.IGNORE) labels.
Proof.
  unfold Masking.IGNORE.
  induction 1 as [|l ls Hl Hls IH].
  { split; [done|]. by intros H%Exists_nil. }
  rewrite shifted_sum_cons, Exists_cons, <- IH.
  pose proof (shifted_sum_nonneg ls Hls). lia.
Qed.

(** The sum of at most [n] labels below [2^31] stays far from the end of
    the [int64] range when [n] is below [2^31] as well. *)
Lemma shifted_sum_bound (labels : list Z) :
  Forall (fun label => (label < 2 ^ 31)%Z) labels ->
  (shifted_sum labels <= Z.of_nat (length labels) * (2 ^ 31 + 100))%Z.
Proof.
  induction 1 as [|l ls Hl _ IH]; [done|].
  rewrite shifted_sum_cons, length_cons. lia.
Qed.

(** While the running sum stays inside the [int64] range, the sum that the
    tensor branch computes is the sum of the integers. *)
Lemma tensor_sum_no_wrap (labels : list Z) (acc : Z) :
  Forall (fun label => (-100 <= label)%Z) labels ->
  (0 <= acc)%Z ->
  (acc + shifted_sum labels < 2 ^ 63)%Z ->
  foldl (fun acc label => wrap_int64 (acc + wrap_int64 (label + 100)))
        acc labels
  = (acc + shifted_sum labels)%Z.
Proof.
  intros Hlow. revert acc.
  induction Hlow as [|l ls Hl Hls IH]; intros acc Hacc Hsum.
  { unfold shifted_sum. simpl. lia. }
  rewrite shifted_sum_cons in Hsum |- *.
  pose proof (shifted_sum_nonneg ls Hls) as Hpos.
  cbn [foldl].
  rewrite (wrap_int64_small (l + 100)) by lia.
  rewrite (wrap_int64_small (acc + (l + 100))) by lia.
  rewrite IH by lia. lia.
Qed.

Lemma is_valid_labels_tensor_spec (labels : list Z) :
  Forall (fun label => (-100 <= label)%Z) labels ->
  (shifted_sum labels < 2 ^ 63)%Z ->
  (is_valid_labels_tensor labels = true
   <-> Exists (fun label => label <> Masking.IGNORE) labels).
Proof.
  intros Hlow Hsum. unfold is_valid_labels_tensor.
  rewrite tensor_sum_no_wrap by (done || lia).
  rewrite negb_true_iff, Z.eqb_neq, Z.add_0_l.
  by apply shifted_sum_positive.
Qed.

Lemma is_valid_labels_agree_core (tensors : bool) (labels : list Z) :
  Forall (fun label => (-100 <= label)%Z) labels ->
  (shifted_sum labels < 2 ^ 63)%Z ->
  (is_valid_labels tensors labels = true
   <-> Exists (fun label => label <> Masking.IGNORE) labels).
Proof.
  intros Hlow Hsum. destruct tensors; simpl.
  - by apply is_valid_labels_tensor_spec.
  - apply is_valid_labels_list_spec.
Qed.

(** The precondition on the sum cannot be dropped: four labels
    [2^62 - 100] add up to [2^64], which an [int64] sum holds as [0], so
    the tensor form calls them invalid where the list form calls them
    valid. *)
Lemma is_valid_labels_tensor_wraps :
  is_valid_labels true (replicate 4 (2 ^ 62 - 100)%Z) = false
  /\ is_valid_labels false (replicate 4 (2 ^ 62 - 100)%Z) = true.
Proof. split; vm_compute; reflexivity. Qed.

(** X18.  The two forms of [is_valid_labels] agree on labels that are not
    below [-100] (token ids and the ignore value) and whose sum, each
    label shifted by 100, is below [2^63], so that the [int64] sum of the
    tensor form does not wrap around: for a list and for a tensor alike
    the labels are valid exactly when some label is not [-100]. *)
Theorem is_valid_labels_agree (tensors : bool) (labels : list Z) :
  Forall (fun label => (-100 <= label)%Z) labels ->
  (shifted_sum labels < 2 ^ 63)%Z ->
  (is_valid_labels tensors labels = true
   <-> Exists (fun label => label <> Masking.IGNORE) labels).
Proof. apply is_valid_labels_agree_core. Qed.

Lemma is_valid_labels_agree_witness :
  is_valid_labels true [-100; 6]%Z = true
  <-> Exists (fun label => label <> Masking.IGNORE) [-100; 6]%Z.
Proof.
  apply (is_valid_labels_agree true [-100; 6]%Z).
  - repeat constructor; lia.
  - vm_compute. reflexivity.
Defined.

Lemma is_valid_labels_nonempty tensors labels :
  is_valid_labels tensors labels = true -> labels <> [].
Proof. by destruct tensors, labels. Qed.

Lemma truncate_id n item :
  (length (input_ids item) <= n)%nat ->
  (length (labels item) <= n)%nat ->
  (length (attention_mask item) <= n)%nat ->
  truncate n item = item.
Proof.
  intros H1 H2 H3. unfold truncate. rewrite !take_ge by done.
  by destruct item.
Qed.

Lemma filter_all {A : Type} (P : A -> Prop) `{!forall x, Decision (P x)}
    (l : list A) :
  Forall P l -> filter P l = l.
Proof.
  induction 1 as [|x l Hx _ IH]; [done|].
  rewrite filter_cons. destruct (decide (P x)); [|done]. by rewrite IH.
Qed.

Lemma map_id_on {A : Type} (f : A -> A) (l : list A) :
  Forall (fun x => f x = x) l -> map f l = l.
Proof. induction 1 as [|x l Hx _ IH]; [done|]. simpl. by rewrite Hx, IH. Qed.

(** X19.  Cache round trip.  Take a context length below [2^31] and a
    data set packed from list-valued records that fit the context and hold
    token ids below [2^31] and labels that are [-100] or such an id.  It
    can be dumped, and opening the dumped folder with the same tokenizer
    gives back the same data points, lengths and groups. *)
Theorem packed_dataset_dump_load (tok : tokenizer) (points : list data_point)
    (old : option folder) :
  (Z.of_nat (model_max_length tok) < 2 ^ 31)%Z ->
  Forall (storable tok) points ->
  exists f,
    PackedDataset_dump false tok (pack_data_points false tok points) old
    = Some f
    /\ PackedDataset_init tok (Some f) false
       = Some (pack_data_points false tok points).
Proof.
  intros Hcontext Hok. eexists. split; [done|].
  unfold PackedDataset_init, is_loadable_cached, load,
    read_max_length_from_cached. cbn.
  rewrite Z.leb_refl. f_equal.
  set (valid := remove_invalid_label_items false points).
  assert (Forall (storable tok) valid) as Hvalid.
  { apply Forall_forall. intros d Hd.
    apply list_elem_of_filter in Hd as [_ Hd].
    rewrite Forall_forall in Hok. by apply Hok. }
  rewrite (map_id_on (truncate (model_max_length tok)) valid); cycle 1.
  { eapply Forall_impl; [exact Hvalid|].
    intros d (H1 & H2 & H3 & _). by apply truncate_id. }
  unfold pack_data_points.
  assert (remove_invalid_label_items true valid = valid) as ->; [|done].
  apply filter_all. apply Forall_forall. intros d Hd.
  assert (is_valid_labels false (labels d) = true) as Hlist.
  { by apply list_elem_of_filter in Hd as [Hd _]. }
  rewrite Forall_forall in Hvalid.
  destruct (Hvalid d Hd) as (_ & Hlen & _ & Hrange & _).
  assert (Forall (fun label => (-100 <= label)%Z) (labels d)) as Hlow.
  { eapply Forall_impl; [exact Hrange|]. intros label Hlabel.
    simpl in Hlabel. lia. }
  assert (shifted_sum (labels d) < 2 ^ 63)%Z as Hsum.
  { pose proof (shifted_sum_bound (labels d)) as Hbound.
    assert (Forall (fun label => (label < 2 ^ 31)%Z) (labels d)) as Hhigh.
    { eapply Forall_impl; [exact Hrange|]. intros label Hlabel.
      simpl in Hlabel. lia. }
    specialize (Hbound Hhigh).
    assert (Z.of_nat (length (labels d)) * (2 ^ 31 + 100)
            <= 2 ^ 31 * (2 ^ 31 + 100))%Z as Hmul.
    { apply Z.mul_le_mono_nonneg_r; lia. }
    lia. }
  apply (is_valid_labels_agree_core true _ Hlow Hsum).
  by apply (is_valid_labels_agree_core false _ Hlow Hsum).
Qed.

Lemma packed_dataset_dump_load_witness :
  exists f,
    PackedDataset_dump false small_tokenizer
      (pack_data_points false small_tokenizer three_points) None = Some f
    /\ PackedDataset_init small_tokenizer (Some f) false
       = Some (pack_data_points false small_tokenizer three_points).
Proof.
  apply (packed_dataset_dump_load small_tokenizer three_points None).
  - simpl. lia.
  - unfold three_points, storable.
    repeat (apply Forall_cons; split;
            [simpl; repeat split; try lia; repeat constructor; lia|]).
    constructor.
Defined.

Lemma select_in_range (points : list data_point) (group : list nat) :
  Forall (fun index => (index < length points)%nat) group ->
  exists items,
    select points group = Some items
    /\ Forall (fun item => item ∈ points) items
    /\ Z.of_nat (total_length items)
       = Packing.group_length
           (map (fun item => Z.of_nat (length (input_ids item))) points) group.
Proof.
  induction 1 as [|index rest Hindex _ (items & Hsel & Hin & Htotal)].
  { by exists []. }
  destruct (lookup_lt_is_Some_2 points index Hindex) as [item Hitem].
  exists (item :: items). cbn [select]. rewrite Hitem, Hsel.
  split; [done|]. split.
  - constructor; [|done]. apply list_elem_of_lookup. by exists index.
  - unfold total_length, Packing.group_length in *. cbn [map foldr sum_list_with].
    rewrite <- Htotal.
    assert (map (fun item0 => Z.of_nat (length (input_ids item0))) points
              !! index
            = Some (Z.of_nat (length (input_ids item)))) as ->.
    { rewrite list_lookup_fmap, Hitem. done. }
    simpl. unfold total_length. lia.
Qed.

(** X20.  Every item of a packed data set can be built.  When each record
    handed to [pack_data_points] has one label per token and fits
    [model_max_length], [__getitem__(i)] succeeds for every [i] below
    [__len__()], and returns ids and labels of exactly [model_max_length]
    entries. *)
Theorem packed_dataset_getitem {V : Type} (zero neg_inf : V)
    (tensors : bool) (tok : tokenizer) (points : list data_point)
    (n i : nat) :
  Forall (packable tok) points ->
  PackedDataset_len (pack_data_points tensors tok points) = Some n ->
  (i < n)%nat ->
  exists item,
    PackedDataset_getitem zero neg_inf tok
      (pack_data_points tensors tok points) i = Some item
    /\ length (packed_input_ids item) = model_max_length tok
    /\ length (packed_labels item) = model_max_length tok.
Proof.
  intros Hok Hlen Hi.
  unfold PackedDataset_len, PackedDataset_getitem, pack_data_points in *.
  cbn [packing data_points] in *.
  set (valid := remove_invalid_label_items tensors points) in *.
  set (lengths := map (fun item => Z.of_nat (length (input_ids item))) valid)
    in *.
  injection Hlen as <-.
  destruct (lookup_lt_is_Some_2 _ i Hi) as [group Hgroup]. rewrite Hgroup.
  assert (Forall (fun d => packable tok d
                           /\ is_valid_labels tensors (labels d) = true)
                 valid) as Hvalid.
  { apply Forall_forall. intros d Hd.
    apply list_elem_of_filter in Hd as [Hv Hd].
    rewrite Forall_forall in Hok. split; [by apply Hok|done]. }
  assert (Forall (fun l => (l <= Z.of_nat (model_max_length tok))%Z) lengths)
    as Hfit.
  { apply Forall_forall. intros l Hl.
    apply list_elem_of_fmap in Hl as (d & -> & Hd).
    rewrite Forall_forall in Hvalid. destruct (Hvalid d Hd) as [[_ ?] _]. lia. }
  rewrite PackingFacts.merge_data_points_by_length_greedy in Hgroup.
  unfold Packing.greedy_pack in Hgroup.
  pose proof (PackingFacts.greedy_groups_bound
                (Z.of_nat (model_max_length tok)) (length lengths) lengths
                O 0%Z [] ltac:(simpl; lia) ltac:(constructor)) as Hbound.
  pose proof (PackingFacts.greedy_groups_capacity
                (Z.of_nat (model_max_length tok)) lengths lengths O 0%Z []
                ltac:(by intros j l Hj) Hfit eq_refl ltac:(by left)) as Hcap.
  rewrite Forall_lookup in Hbound, Hcap.
  specialize (Hbound i group Hgroup). specialize (Hcap i group Hgroup).
  simpl in Hcap.
  destruct (select_in_range valid group) as (items & -> & Hin & Htotal).
  { eapply Forall_impl; [exact Hbound|]. intros index Hindex. simpl in Hindex.
    unfold lengths in Hindex. by rewrite length_map in Hindex. }
  fold lengths in Htotal.
  assert (Forall mergeable items) as Hmerge.
  { eapply Forall_impl; [exact Hin|]. intros d Hd.
    rewrite Forall_forall in Hvalid. destruct (Hvalid d Hd) as [[Heq _] Hv].
    split; [by eapply is_valid_labels_nonempty | done]. }
  destruct (MergeExtra.merge_data_points_fits zero neg_inf items tok Hmerge
              ltac:(lia)) as (M & HM & ->).
  cbv zeta. eexists. split; [done|].
  destruct (String.eqb (padding_side tok) "right"); cbn;
    rewrite !length_app, !length_replicate, MergeExtra.length_concat_ids,
      (MergeExtra.length_concat_relabel _ Hmerge);
    split; lia.
Qed.

Lemma packed_dataset_getitem_witness :
  exists item,
    PackedDataset_getitem 0%Z (-1)%Z small_tokenizer
      (pack_data_points false small_tokenizer three_points) 1
    = Some item
    /\ length (packed_input_ids item) = 4%nat
    /\ length (packed_labels item) = 4%nat.
Proof.
  apply (packed_dataset_getitem 0%Z (-1)%Z false small_tokenizer three_points
           2 1).
  - unfold three_points, packable.
    repeat (apply Forall_cons; split; [simpl; split; [done|lia]|]).
    constructor.
  - reflexivity.
  - lia.
Defined.

Lemma filter_none {A : Type} (P : A -> Prop) `{!forall x, Decision (P x)}
    (l : list A) :
  Forall (fun x => ~ P x) l -> filter P l = [].
Proof.
  induction 1 as [|x l Hx _ IH]; [done|].
  rewrite filter_cons. by destruct (decide (P x)).
Qed.

(** X21.  A cache that yields nothing is passed over.  When the folder is
    loadable but none of its records, cut to the requested length, has a
    valid label, [DirectPackedDataset] ends up with the data set encoded
    and packed from the raw data, as if there were no cache. *)
Theorem direct_packed_dataset_empty_cache (tok : tokenizer) (f : folder)
    (items original_datapoints : list data_point) (cached : Z) :
  inputs_jsonl f = Some items ->
  meta_info_json f = Some cached ->
  (Z.of_nat (model_max_length tok) <= cached)%Z ->
  Forall (fun item =>
            is_valid_labels true
              (labels (truncate (model_max_length tok) item)) = false) items ->
  DirectPackedDataset_init tok original_datapoints (Some f) false
  = Some (pack_data_points false tok original_datapoints).
Proof.
  intros Hitems Hmeta Hle Hinvalid.
  unfold DirectPackedDataset_init, PackedDataset_init, is_loadable_cached,
    load, read_max_length_from_cached.
  rewrite Hitems, Hmeta. apply Z.leb_le in Hle. rewrite Hle.
  rewrite bool_decide_eq_true_2 by (by eexists). cbn [andb negb].
  unfold pack_data_points at 1. cbn [data_points].
  unfold remove_invalid_label_items.
  rewrite filter_none; [done|].
  apply Forall_forall. intros d Hd.
  apply list_elem_of_fmap in Hd as (d0 & -> & Hd0).
  rewrite Forall_forall in Hinvalid. rewrite (Hinvalid d0 Hd0). done.
Qed.

Lemma direct_packed_dataset_empty_cache_witness :
  DirectPackedDataset_init (Tokenizer 1 "right" 0%Z) three_points
    (Some short_context_folder) false
  = Some (pack_data_points false (Tokenizer 1 "right" 0%Z) three_points).
Proof.
  apply (direct_packed_dataset_empty_cache
           (Tokenizer 1 "right" 0%Z) short_context_folder
           [short_context_record] three_points 4%Z);
    [reflexivity | reflexivity | simpl; lia | repeat constructor].
Defined.

End DatasetExtra.

(* ------------------------------------------------------------------ *)
(** *** Decode loop: shape of the stream and reassembly of the text *)

Module DecodeExtra.
Import Decode DecodeFacts.

Lemma text_of_app (xs ys : list (string * option string)) :
  Stream.text_of (xs ++ ys) = Stream.text_of xs +:+ Stream.text_of ys.
Proof.
  induction xs as [|[item reason] xs IH]; [done|].
  cbn [app Stream.text_of]. rewrite IH.
  symmetry. apply StreamFacts.string_app_assoc.
Qed.

Lemma prefix_drop (p s : string) :
  String.prefix p s = true ->
  p +:+ PyString.string_drop (String.length p) s = s.
Proof.
  revert s. induction p as [|a p IH]; intros s; [done|].
  destruct s as [|b s]; [done|]. cbn [String.prefix].
  destruct (ascii_dec a b) as [->|]; [|done]. intros Hp.
  cbn [String.length PyString.string_drop].
  change (String b (p +:+ PyString.string_drop (String.length p) s)
          = String b s).
  by rewrite IH.
Qed.

Section Session.
Variable sample : list Z -> Z.
Variable decode : list Z -> string.
Variable eos_token_id : Z.

Lemma decode_steps_shape steps : forall output_ids,
  Forall (fun y => y.2 = None)
         (decode_steps sample decode eos_token_id steps output_ids).1
  /\ (length (decode_steps sample decode eos_token_id steps output_ids).1
      <= steps)%nat.
Proof.
  induction steps as [|steps IH]; intros output_ids; cbn [decode_steps].
  { split; [constructor|done]. }
  destruct (_ =? _)%Z; [split; [constructor|simpl; lia]|].
  specialize (IH (output_ids ++ [sample output_ids])).
  destruct (decode_steps _ _ _ _ _) as [yielded stop]. simpl in *.
  destruct IH as [Hnone Hlen]. split; [by constructor|lia].
Qed.

Lemma decode_steps_text steps : forall output_ids,
  (forall ids t, String.prefix (decode ids) (decode (ids ++ [t])) = true) ->
  decode output_ids
  +:+ Stream.text_of
        (decode_steps sample decode eos_token_id steps output_ids).1
  = decode
      (ids_at sample output_ids
         (length (decode_steps sample decode eos_token_id steps output_ids).1)).
Proof.
  induction steps as [|steps IH]; intros output_ids Hmono; cbn [decode_steps].
  { apply StreamFacts.string_app_empty_r. }
  destruct (_ =? _)%Z; [apply StreamFacts.string_app_empty_r|].
  specialize (IH (output_ids ++ [sample output_ids]) Hmono).
  destruct (decode_steps _ _ _ _ _) as [yielded stop]. simpl fst in *.
  cbn [Stream.text_of length].
  rewrite ids_at_shift, <- IH, <- StreamFacts.string_app_assoc.
  unfold text_increment. by rewrite prefix_drop.
Qed.

End Session.

(** X22.  Every stream of [generate_text_stream] has the same shape: at
    most [max_new_tokens] pairs without finish reason, then exactly one
    pair with the empty text and a finish reason, and nothing after it. *)
Theorem generate_text_stream_shape (sample : list Z -> Z)
    (decode : list Z -> string) (eos_token_id : Z) (input_ids : list Z)
    (max_new_tokens : nat) :
  exists yielded reason,
    generate_text_stream sample decode eos_token_id input_ids max_new_tokens
    = yielded ++ [(EmptyString, Some reason)]
    /\ Forall (fun y => y.2 = None) yielded
    /\ (length yielded <= max_new_tokens)%nat.
Proof.
  unfold generate_text_stream.
  pose proof (decode_steps_shape sample decode eos_token_id max_new_tokens
                input_ids) as Hshape.
  destruct (decode_steps _ _ _ _ _) as [yielded stop].
  by eexists _, _.
Qed.

(** X23.  Streamed text reassembles.  If decoding a longer id list always
    extends the decoding of the shorter one, then the prompt text followed
    by all streamed increments is the decoding of the prompt and the
    tokens of the yielded steps. *)
Theorem generate_text_stream_reassembles (sample : list Z -> Z)
    (decode : list Z -> string) (eos_token_id : Z) (input_ids : list Z)
    (max_new_tokens : nat) :
  (forall ids t, String.prefix (decode ids) (decode (ids ++ [t])) = true) ->
  decode input_ids
  +:+ Stream.text_of
        (generate_text_stream sample decode eos_token_id input_ids
                              max_new_tokens)
  = decode
      (ids_at sample input_ids
         (length (generate_text_stream sample decode eos_token_id input_ids
                                       max_new_tokens) - 1)).
Proof.
  intros Hmono. unfold generate_text_stream.
  pose proof (decode_steps_text sample decode eos_token_id max_new_tokens
                input_ids Hmono) as Htext.
  destruct (decode_steps _ _ _ _ _) as [yielded stop]. simpl fst in Htext.
  rewrite text_of_app, length_app. cbn [Stream.text_of length].
  rewrite !StreamFacts.string_app_empty_r, Htext.
  by replace (length yielded + 1 - 1)%nat with (length yielded) by lia.
Qed.

Lemma letters_decode_prefix (ids : list Z) (t : Z) :
  String.prefix (DecodeProps.letters_decode ids)
                (DecodeProps.letters_decode (ids ++ [t])) = true.
Proof.
  induction ids as [|x ids IH]; [done|].
  cbn [app DecodeProps.letters_decode String.prefix].
  by destruct (ascii_dec "a" "a").
Qed.

Lemma generate_text_stream_reassembles_witness :
  DecodeProps.letters_decode [1%Z]
  +:+ Stream.text_of
        (generate_text_stream endless_sample DecodeProps.letters_decode 2%Z
                              [1%Z] 2)
  = "aaa"%string.
Proof.
  rewrite (generate_text_stream_reassembles
             endless_sample DecodeProps.letters_decode 2%Z [1%Z] 2);
    [reflexivity | apply letters_decode_prefix].
Defined.

End DecodeExtra.

(* ------------------------------------------------------------------ *)
(** *** Streaming classifier: whole sessions and the call marker *)

Module StreamExtra.
Import Stream StreamFacts StreamProps.

(** Once the session is a text session, every increment is passed on as
    content and the item with the finish reason closes with that reason. *)
Lemma consume_text (texts : list string) : forall cur fn last reason,
  consume (State cur fn (Some KText))
          (increments texts ++ [(last, Some reason)])
  = map content_delta texts ++ [closing reason].
Proof.
  induction texts as [|text texts IH]; intros cur fn last reason; [done|].
  cbn [increments map app consume classify response_type].
  cbn [fst snd]. f_equal. apply IH.
Qed.

(** Once the session is a function call, every increment is passed on as
    arguments and the item with the finish reason closes with
    "function_call". *)
Lemma consume_function (texts : list string) : forall cur f last reason,
  consume (State cur (Some f) (Some KFunction))
          (increments texts ++ [(last, Some reason)])
  = map (arguments_delta f) texts ++ [closing "function_call"].
Proof.
  induction texts as [|text texts IH]; intros cur f last reason; [done|].
  cbn [increments map app consume classify response_type func_name].
  cbn [fst snd]. f_equal. apply IH.
Qed.

Lemma session_split (quiet : list string) (opener : string)
    (rest : list (string * option string)) :
  Forall (fun text => determines text = false)
         (accumulated EmptyString (increments quiet)) ->
  classify_stream (increments quiet ++ (opener, None) :: rest)
  = consume (State (text_of (increments quiet)) None None)
            ((opener, None) :: rest).
Proof.
  intros Hquiet. unfold classify_stream. rewrite consume_app.
  destruct (consume_undetermined (increments quiet) initial eq_refl Hquiet)
    as [-> ->].
  done.
Qed.

(** X24.  A text session.  If the session stays undetermined until an
    increment makes the accumulated text, trimmed on the left, equal to the
    separator, then the responses are: the opening text response, one
    content response per later increment with exactly its text, and the
    closing response with the finish reason of the decode loop.  The text
    of the opening increment and of the final item is not passed on. *)
Theorem classify_stream_text_session (quiet texts : list string)
    (opener last reason : string) :
  Forall (fun text => determines text = false)
         (accumulated EmptyString (increments quiet)) ->
  PyString.lstrip (text_of (increments quiet) +:+ opener) = turn_separator ->
  classify_stream (increments quiet ++ (opener, None)
                   :: increments texts ++ [(last, Some reason)])
  = open_text :: map content_delta texts ++ [closing reason].
Proof.
  intros Hquiet Hsep. rewrite session_split by done.
  cbn [consume classify response_type cur_text]. rewrite Hsep.
  assert (String.eqb turn_separator turn_separator = true) as ->
    by apply String.eqb_refl.
  cbn [fst snd]. unfold open_text. f_equal. apply consume_text.
Qed.

Lemma classify_stream_text_session_witness :
  classify_stream
    (increments [EmptyString] ++ (turn_separator, None)
     :: increments ["hello"; " world"]%string
        ++ [(EmptyString, Some "stop"%string)])
  = open_text :: map content_delta ["hello"; " world"]%string
    ++ [closing "stop"].
Proof.
  apply (classify_stream_text_session
           [EmptyString] ["hello"; " world"]%string turn_separator
           EmptyString "stop"%string);
    [repeat constructor | reflexivity].
Defined.

(** X25.  A function-call session.  If the session stays undetermined
    until an increment brings the first match of [to=functions.<name>:]
    (the accumulated text not being the separator), then the responses
    are: the opening function response with the trimmed name and empty
    arguments, one arguments response per later increment with exactly its
    text, and the closing response with reason "function_call", whatever
    the finish reason of the decode loop.  Text that follows the colon
    inside the opening increment is not passed on. *)
Theorem classify_stream_function_session (quiet texts : list string)
    (opener last reason f : string) :
  Forall (fun text => determines text = false)
         (accumulated EmptyString (increments quiet)) ->
  PyString.lstrip (text_of (increments quiet) +:+ opener) <> turn_separator ->
  PyString.search_function
    (PyString.strip (text_of (increments quiet) +:+ opener)) = Some f ->
  classify_stream (increments quiet ++ (opener, None)
                   :: increments texts ++ [(last, Some reason)])
  = open_function (PyString.strip f)
    :: map (arguments_delta (PyString.strip f)) texts
    ++ [closing "function_call"].
Proof.
  intros Hquiet Hsep Hsearch. rewrite session_split by done.
  cbn [consume classify response_type cur_text].
  apply String.eqb_neq in Hsep. rewrite Hsep, Hsearch.
  cbn [fst snd]. unfold open_function. f_equal. apply consume_function.
Qed.

Lemma classify_stream_function_session_witness :
  classify_stream
    (increments ["to=functions."; "get_weather"]%string
     ++ (call_header_tail, None)
     :: increments [city_value]
        ++ [(EmptyString, Some "lenghth"%string)])
  = open_function "get_weather"
    :: map (arguments_delta "get_weather") [city_value]
    ++ [closing "function_call"].
Proof.
  apply (classify_stream_function_session
           ["to=functions."; "get_weather"]%string [city_value]
           call_header_tail EmptyString "lenghth"%string
           "get_weather"%string);
    [repeat constructor | discriminate | reflexivity].
Defined.

Lemma lazy_until_colon_plain (name : string) : forall rest group,
  plain name = true ->
  PyString.lazy_until_colon (name +:+ String PyString.colon rest) group
  = Some (group +:+ name).
Proof.
  induction name as [|c name IH]; intros rest group Hplain.
  { cbn. by rewrite string_app_empty_r. }
  cbn [plain] in Hplain.
  apply andb_prop in Hplain as [[Hc Hn]%andb_prop Hplain].
  apply negb_true_iff in Hc, Hn.
  change (String c name +:+ String PyString.colon rest)
    with (String c (name +:+ String PyString.colon rest)).
  cbn [PyString.lazy_until_colon]. rewrite Hc, Hn.
  rewrite IH by done.
  change (group ++ String c EmptyString)%string
    with (group +:+ String c EmptyString).
  by rewrite string_app_assoc.
Qed.

(** X26.  The call marker is recognised.  For a non-empty name without
    colon and newline, the search for [to=functions.<name>:] in a text that
    starts with the marker returns that name, whatever follows the colon. *)
Theorem search_function_marker (name rest : string) :
  name <> EmptyString ->
  plain name = true ->
  PyString.search_function
    ("to=functions." +:+ name +:+ String PyString.colon rest)
  = Some name.
Proof.
  intros Hne Hplain. destruct name as [|c name]; [done|].
  cbn [plain] in Hplain.
  apply andb_prop in Hplain as [[Hc Hn]%andb_prop Hplain].
  apply negb_true_iff in Hn.
  assert (PyString.match_function_at
            ("to=functions." +:+ String c name +:+ String PyString.colon rest)
          = Some (String c name)) as Hmatch.
  { unfold PyString.match_function_at.
    assert (String.prefix "to=functions."
              ("to=functions." +:+ String c name
               +:+ String PyString.colon rest) = true) as -> by reflexivity.
    change (PyString.string_drop 13
              ("to=functions." +:+ String c name
               +:+ String PyString.colon rest))
      with (String c (name +:+ String PyString.colon rest)).
    cbv iota beta. rewrite Hn. by rewrite lazy_until_colon_plain. }
  destruct ("to=functions." +:+ String c name +:+ String PyString.colon rest)
    eqn:Htext; cbn [PyString.search_function]; by rewrite Hmatch.
Qed.

Lemma search_function_marker_witness :
  PyString.search_function
    ("to=functions." +:+ "get_weather"
     +:+ String PyString.colon (String PyString.newline "{"))
  = Some "get_weather"%string.
Proof.
  apply (search_function_marker "get_weather"
           (String PyString.newline "{")); [discriminate | reflexivity].
Defined.

End StreamExtra.

(* ------------------------------------------------------------------ *)
(** *** Reading a generated message *)

Module MessageExtra.
Import Message StreamFacts.

Lemma split_turn_nonempty (s : string) : forall cur, split_turn s cur <> [].
Proof.
  induction s as [|c s IH]; intros cur; [done|]. cbn [split_turn].
  destruct s as [|d s']; [done|]. destruct (_ && _); [done|apply IH].
Qed.

Lemma split_turn_none (s : string) : forall cur,
  contains_turn s = false -> split_turn s cur = [cur +:+ s].
Proof.
  induction s as [|c s IH]; intros cur Hno.
  { cbn. by rewrite string_app_empty_r. }
  cbn [split_turn contains_turn] in *. destruct s as [|d s']; [done|].
  apply orb_false_elim in Hno as [-> Hno].
  rewrite IH by done.
  change (cur ++ String c EmptyString)%string
    with (cur +:+ String c EmptyString).
  by rewrite string_app_assoc.
Qed.

Lemma split_turn_first (x : string) : forall cur y,
  contains_turn x = false ->
  split_turn (x +:+ separator +:+ y) cur
  = (cur +:+ x) :: split_turn y EmptyString.
Proof.
  induction x as [|c x IH]; intros cur y Hno.
  { cbn. by rewrite string_app_empty_r. }
  change (String c x +:+ separator +:+ y)
    with (String c (x +:+ separator +:+ y)).
  cbn [split_turn].
  assert (split_turn (x +:+ separator +:+ y) (cur ++ String c EmptyString)
          = (cur +:+ String c x) :: split_turn y EmptyString) as Hrest.
  { rewrite IH.
    - change (cur ++ String c EmptyString)%string
        with (cur +:+ String c EmptyString).
      by rewrite string_app_assoc.
    - cbn [contains_turn] in Hno. destruct x as [|d x']; [done|].
      by apply orb_false_elim in Hno as [_ Hno]. }
  destruct x as [|d x'].
  - change (EmptyString +:+ separator +:+ y)
      with (String PyString.colon (String PyString.newline y)) in *.
    cbv iota beta.
    assert (Ascii.eqb PyString.colon PyString.newline = false) as ->
      by reflexivity.
    rewrite andb_false_r. exact Hrest.
  - change (String d x' +:+ separator +:+ y)
      with (String d (x' +:+ separator +:+ y)) in *.
    cbv iota beta.
    cbn [contains_turn] in Hno. apply orb_false_elim in Hno as [-> _].
    exact Hrest.
Qed.

Lemma call_text (x : string) :
  String.prefix "to=functions." ("to=functions." +:+ x) = true
  /\ PyString.string_drop 13 ("to=functions." +:+ x) = x.
Proof. split; [|reflexivity]. by destruct x. Qed.

(** X27.  A function call written in the trained format is read back: for
    a name and arguments that do not hold the separator [":\n"], the text
    [to=functions.<name>:\n<arguments>] gives the assistant message with
    that function name and those arguments. *)
Theorem generate_message_reads_call (name arguments : string) :
  contains_turn name = false ->
  contains_turn arguments = false ->
  generate_message ("to=functions." +:+ name +:+ separator +:+ arguments)
  = Some (ChatMessage "assistant" None (Some (name, arguments))).
Proof.
  intros Hname Hargs. unfold generate_message.
  destruct (call_text (name +:+ separator +:+ arguments)) as [-> ->].
  cbv zeta. rewrite split_turn_first by done.
  by rewrite (split_turn_none arguments EmptyString Hargs).
Qed.

Lemma generate_message_reads_call_witness :
  generate_message ("to=functions." +:+ "get_weather" +:+ separator +:+ "{}")
  = Some (ChatMessage "assistant" None (Some ("get_weather", "{}")%string)).
Proof.
  apply (generate_message_reads_call "get_weather" "{}"); reflexivity.
Defined.

(** X28.  A function call that cannot be unpacked raises.  When nothing
    after [to=functions.] holds the separator [":\n"], or when the
    arguments hold it once more (a colon at the end of a line, as in
    indented JSON), [generate_message] fails instead of returning a
    message. *)
Theorem generate_message_call_error (name first second : string) :
  contains_turn name = false ->
  contains_turn first = false ->
  generate_message ("to=functions." +:+ name) = None
  /\ generate_message
       ("to=functions." +:+ name +:+ separator +:+ first +:+ separator
        +:+ second) = None.
Proof.
  intros Hname Hfirst. unfold generate_message. split.
  - destruct (call_text name) as [-> ->]. cbv zeta.
    by rewrite (split_turn_none name EmptyString Hname).
  - destruct (call_text (name +:+ separator +:+ first +:+ separator
                         +:+ second)) as [-> ->].
    cbv zeta. rewrite split_turn_first by done.
    rewrite split_turn_first by done.
    pose proof (split_turn_nonempty second EmptyString).
    by destruct (split_turn second EmptyString).
Qed.

Lemma generate_message_call_error_witness :
  generate_message ("to=functions." +:+ "f") = None
  /\ generate_message
       ("to=functions." +:+ "f" +:+ separator +:+ "{a" +:+ separator
        +:+ " 1}") = None.
Proof.
  apply (generate_message_call_error "f" "{a" " 1}"); reflexivity.
Defined.

Lemma lstrip_chars_split chars (s : string) :
  exists pre,
    s = pre +:+ lstrip_chars chars s /\ all_in chars pre = true.
Proof.
  induction s as [|c s (pre & Hs & Hpre)]; [by exists EmptyString|].
  cbn [lstrip_chars]. destruct (mem_char c chars) eqn:Hc.
  - exists (String c pre). split.
    + change (String c s = String c (pre +:+ lstrip_chars chars s)).
      by rewrite <- Hs.
    + cbn. by rewrite Hc.
  - by exists EmptyString.
Qed.

Lemma rstrip_chars_split chars (s : string) :
  exists suf,
    s = rstrip_chars chars s +:+ suf /\ all_in chars suf = true.
Proof.
  induction s as [|c s (suf & Hs & Hsuf)]; [by exists EmptyString|].
  cbn [rstrip_chars]. destruct (rstrip_chars chars s) as [|d r] eqn:Hr.
  - destruct (mem_char c chars) eqn:Hc.
    + exists (String c s). split; [done|].
      cbn. rewrite Hc. simpl. by rewrite Hs.
    + exists suf. split; [|done].
      change (String c s = String c (EmptyString +:+ suf)). by rewrite <- Hs.
  - exists suf. split; [|done].
    change (String c s = String c (String d r +:+ suf)). by rewrite <- Hs.
Qed.

Lemma rstrip_chars_cons chars c (s : string) :
  rstrip_chars chars (String c s)
  = match rstrip_chars chars s with
    | EmptyString =>
        if mem_char c chars then EmptyString else String c EmptyString
    | String _ _ as rest' => String c rest'
    end.
Proof. done. Qed.

Lemma rstrip_chars_idem chars (s : string) :
  rstrip_chars chars (rstrip_chars chars s) = rstrip_chars chars s.
Proof.
  induction s as [|c s IH]; [done|]. rewrite rstrip_chars_cons.
  destruct (rstrip_chars chars s) as [|d r] eqn:Hr.
  - destruct (mem_char c chars) eqn:Hc; [done|]. cbn. by rewrite Hc.
  - rewrite rstrip_chars_cons. by rewrite IH.
Qed.

Lemma lstrip_chars_idem chars (s : string) :
  lstrip_chars chars (lstrip_chars chars s) = lstrip_chars chars s.
Proof.
  induction s as [|c s IH]; [done|]. cbn [lstrip_chars].
  destruct (mem_char c chars) eqn:Hc; [done|]. cbn. by rewrite Hc.
Qed.

Lemma lstrip_rstrip_stable chars chars' (s : string) :
  lstrip_chars chars s = s ->
  lstrip_chars chars (rstrip_chars chars' s) = rstrip_chars chars' s.
Proof.
  destruct s as [|c s]; [done|]. cbn [lstrip_chars rstrip_chars].
  destruct (mem_char c chars) eqn:Hc.
  - intros Hfix. exfalso.
    assert (String.length (lstrip_chars chars s) <= String.length s)%nat.
    { clear. induction s as [|x s IH]; [done|]. cbn [lstrip_chars].
      destruct (mem_char x chars); simpl in *; lia. }
    rewrite Hfix in H. simpl in H. lia.
  - intros _. destruct (rstrip_chars chars' s).
    + destruct (mem_char c chars'); [done|]. cbn. by rewrite Hc.
    + cbn. by rewrite Hc.
Qed.

(** X29.  The plain reply is trimmed by character sets, not by the role
    literals.  For a text that is not a function call the content is what
    is left of the text once every leading character out of
    ["assistant:\n"] and every trailing character out of ["\n user:\n"]
    is removed: the text is the content between two such runs, and the
    content neither starts nor ends with a character of its set (so a
    reply loses leading letters such as "s" or "a" and trailing letters
    such as "e" or "r"). *)
Theorem generate_message_trims_sets (generated_content : string) :
  String.prefix "to=functions." generated_content = false ->
  exists content pre suf,
    generate_message generated_content
    = Some (ChatMessage "assistant" (Some content) None)
    /\ generated_content = pre +:+ content +:+ suf
    /\ all_in leading_chars pre = true
    /\ all_in trailing_chars suf = true
    /\ lstrip_chars leading_chars content = content
    /\ rstrip_chars trailing_chars content = content.
Proof.
  intros Hcall. unfold generate_message. rewrite Hcall.
  fold leading_chars. fold trailing_chars.
  destruct (lstrip_chars_split leading_chars generated_content)
    as (pre & Hpre & Hprein).
  destruct (rstrip_chars_split trailing_chars
              (lstrip_chars leading_chars generated_content))
    as (suf & Hsuf & Hsufin).
  eexists _, pre, suf. split; [done|]. split; [|split; [done|split; [done|]]].
  - by rewrite <- Hsuf.
  - split; [|apply rstrip_chars_idem].
    apply lstrip_rstrip_stable. apply lstrip_chars_idem.
Qed.

Lemma generate_message_trims_sets_witness :
  exists content pre suf,
    generate_message "snow is white"
    = Some (ChatMessage "assistant" (Some content) None)
    /\ "snow is white"%string = pre +:+ content +:+ suf
    /\ all_in leading_chars pre = true
    /\ all_in trailing_chars suf = true
    /\ lstrip_chars leading_chars content = content
    /\ rstrip_chars trailing_chars content = content.
Proof.
  apply (generate_message_trims_sets "snow is white"). reflexivity.
Defined.

End MessageExtra.
